(** * Channel pruning through batch-normalisation scales: penalties and rescaling

    A shallow embedding of [main.py]: the ISTA penalty computation
    ([compute_penalties]), its unfinished sibling ([compute_penalties_]) and
    the gamma rescaling ([scale_gammas]), together with models of the proximal
    step and of the channel compressor, which live in modules of the
    repository that [main.py] only imports.

    Conventions.
    - Python numbers are exact rationals ([Q]); two results are compared with
      [Qeq] ([==]).  What is proved over them holds in exact arithmetic.
      [compute_penalties] is embedded a second time over IEEE doubles
      ([PenaltyFloat]), the numbers the program computes with, to decide
      where rounding makes a difference.
    - [/] is Python 3 true division: it raises [ZeroDivisionError] on a zero
      divisor and otherwise yields the exact quotient.
    - A model is given by its flattened layer sequence, that is by what
      [expand_model(model, [])] returns, and the list [compute_dims(model)]
      is an argument of the functions that call it.
    - Exceptions are values of [exn]; a computation is a [result]. *)

From Stdlib Require Import QArith Qabs Qminmax Lia Lqa Sorted.
From Stdlib Require PrimFloat SpecFloat FloatOps.
From stdpp Require Import base option list gmap strings.

Set Default Proof Using "Type".

(** ** Exceptions and results *)

Inductive exn : Type :=
  | IndexError
  | ZeroDivisionError
  | TypeError
  | NameError (name : string)
  | UnboundLocalError (name : string)
  | ShapeMismatch
  | PruningImpossible.

Inductive result (A : Type) : Type :=
  | Ok (a : A)
  | Raise (e : exn).
Arguments Ok {A} a.
Arguments Raise {A} e.

#[global] Instance result_ret : MRet result := fun _ a => Ok a.
#[global] Instance result_bind : MBind result := fun _ _ f r =>
  match r with
  | Ok a => f a
  | Raise e => Raise e
  end.

(** ** Layers *)

Record Conv2d : Type := mkConv2d {
  kernel_size : nat * nat;
  in_channels : nat;
  out_channels : nat;
  conv_weight : list Q
}.

Record BatchNorm2dEx : Type := mkBatchNorm2dEx {
  bn_weight : list Q;
  follow : bool
}.

Inductive layer : Type :=
  | LConv2d (c : Conv2d)
  | LBatchNorm2dEx (b : BatchNorm2dEx)
  | LOther (kind : string).

(** [isinstance(l, nn.Conv2d)], returning the convolution when it is one. *)
Definition as_conv (l : layer) : option Conv2d :=
  match l with
  | LConv2d c => Some c
  | _ => None
  end.

Definition is_conv (l : layer) : bool :=
  match l with
  | LConv2d _ => true
  | _ => false
  end.

Definition is_bnx (l : layer) : bool :=
  match l with
  | LBatchNorm2dEx _ => true
  | _ => false
  end.

(** ** Arithmetic of the source *)

Definition of_nat (n : nat) : Q := inject_Z (Z.of_nat n).

(** [a / b] *)
Definition py_div (a b : Q) : result Q :=
  if Qeq_bool b 0 then Raise ZeroDivisionError else Ok (a / b)%Q.

(** [xs[n]] for a non-negative [n] *)
Definition py_index {A : Type} (xs : list A) (n : nat) : result A :=
  match xs !! n with
  | Some x => Ok x
  | None => Raise IndexError
  end.

(** ** [compute_penalties] *)

Module Penalty.

(** [filter(lambda l : isinstance(l, nn.Conv2d), expand_model(model, []))] *)
Definition conv_layers (model : list layer) : list Conv2d :=
  omap as_conv model.

(** [kernel_size[0] * kernel_size[1] * in_channels] *)
Definition kernel_cost (c : Conv2d) : Q :=
  of_nat (fst (kernel_size c) * snd (kernel_size c) * in_channels c).

(** The loop over [enumerate(tail)]: [j] is the running index, [acc] the
    value of [follow_up_cost] so far. *)
Fixpoint follow_up_loop (image_dims : list Q) (i j : nat)
    (tail : list Conv2d) (acc : Q) : result Q :=
  match tail with
  | [] => Ok acc
  | follow_up_conv :: tail' =>
      d ← py_index image_dims (j + i);
      follow_up_loop image_dims i (S j) tail'
        (acc + (kernel_cost follow_up_conv + d ^ 2))%Q
  end.

(** The value of [follow_up_cost] when the inner loop of iteration [i]
    ends. *)
Definition follow_up_cost (image_dims : list Q) (layers : list Conv2d)
    (i : nat) : result Q :=
  follow_up_loop image_dims i 0 (drop (S i) layers) 0%Q.

(** The body of the outer loop at index [i]: the value appended to
    [penalties]. *)
Definition ista (rho image_dim : Q) (image_dims : list Q)
    (layers : list Conv2d) (i : nat) : result Q :=
  l ← py_index layers i;
  let i_w := image_dim in
  let i_h := image_dim in
  cost ← follow_up_cost image_dims layers i;
  inv ← py_div 1 i_w;
  let ista := ((inv * i_h) * (kernel_cost l + cost))%Q in
  Ok (rho * ista)%Q.

(** [for i in range(len(layers))], threading [penalties]. *)
Fixpoint penalties_loop (rho image_dim : Q) (image_dims : list Q)
    (layers : list Conv2d) (range : list nat) (penalties : list Q)
    : result (list Q) :=
  match range with
  | [] => Ok penalties
  | i :: range' =>
      p ← ista rho image_dim image_dims layers i;
      penalties_loop rho image_dim image_dims layers range' (penalties ++ [p])
  end.

Definition compute_penalties (image_dims : list Q) (model : list layer)
    (rho image_dim : Q) : result (list Q) :=
  let layers := conv_layers model in
  penalties_loop rho image_dim image_dims layers (seq 0 (length layers)) [].

(** The default of [image_dim]. *)
Definition default_image_dim : Q := 40%Q.

End Penalty.

(** ** [compute_penalties] over doubles *)

Module PenaltyFloat.
Import PrimFloat.

(** The conversion of a Python [int] to a [float]: the nearest double. *)
Definition float_of_int (z : Z) : float :=
  FloatOps.SF2Prim (SpecFloat.binary_normalize 53 1024 z 0 false).

(** [a / b] with a [float] divisor *)
Definition py_div (a b : float) : result float :=
  if PrimFloat.eqb b 0 then Raise ZeroDivisionError else Ok (a / b)%float.

(** [kernel_size[0] * kernel_size[1] * in_channels], an [int] *)
Definition kernel_cost (c : Conv2d) : Z :=
  Z.of_nat (fst (kernel_size c) * snd (kernel_size c) * in_channels c).

(** The loop over [enumerate(tail)].  The entries of [image_dims] are
    [int]s, so the right-hand side of [+=] is an [int], converted when it is
    added to the [float] [follow_up_cost]. *)
Fixpoint follow_up_loop (image_dims : list Z) (i j : nat)
    (tail : list Conv2d) (acc : float) : result float :=
  match tail with
  | [] => Ok acc
  | follow_up_conv :: tail' =>
      d ← py_index image_dims (j + i);
      follow_up_loop image_dims i (S j) tail'
        (acc + float_of_int (kernel_cost follow_up_conv + d ^ 2))%float
  end.

Definition follow_up_cost (image_dims : list Z) (layers : list Conv2d)
    (i : nat) : result float :=
  follow_up_loop image_dims i 0 (drop (S i) layers) 0%float.

(** The body of the outer loop at index [i].  [rho] and [image_dim] are
    doubles (an [int] argument is the double of the same value). *)
Definition ista (rho image_dim : float) (image_dims : list Z)
    (layers : list Conv2d) (i : nat) : result float :=
  l ← py_index layers i;
  let i_w := image_dim in
  let i_h := image_dim in
  cost ← follow_up_cost image_dims layers i;
  inv ← py_div 1 i_w;
  let ista := ((inv * i_h) * (float_of_int (kernel_cost l) + cost))%float in
  Ok (rho * ista)%float.

Fixpoint penalties_loop (rho image_dim : float) (image_dims : list Z)
    (layers : list Conv2d) (range : list nat) (penalties : list float)
    : result (list float) :=
  match range with
  | [] => Ok penalties
  | i :: range' =>
      p ← ista rho image_dim image_dims layers i;
      penalties_loop rho image_dim image_dims layers range' (penalties ++ [p])
  end.

Definition compute_penalties (image_dims : list Z) (model : list layer)
    (rho image_dim : float) : result (list float) :=
  let layers := Penalty.conv_layers model in
  penalties_loop rho image_dim image_dims layers (seq 0 (length layers)) [].

End PenaltyFloat.

(** ** [compute_penalties_] *)

Module Alternate.

(** What a global name of the module can be bound to, as far as the three
    free names of [compute_penalties_] go: a number or a list of layers. *)
Inductive pyval : Type :=
  | VNum (q : Q)
  | VLayers (ls : list layer).

(** A read of a name that is not local to the function. *)
Definition lookup_global (globals : gmap string pyval) (name : string)
    : result pyval :=
  match globals !! name with
  | Some v => Ok v
  | None => Raise (NameError name)
  end.

(** The body of the loop for one pair [(l1, l2)].  [follow_up_cost] is
    assigned in the function and so is local to it; it is read by [+=]
    before anything has been stored in it. *)
Definition pair_body (globals : gmap string pyval) (l1 l2 : layer)
    : result unit :=
  if is_conv l1 && is_bnx l2 then
    num_zeros ← lookup_global globals "num_zeros";
    match num_zeros with
    | VLayers _ => Raise TypeError
    | VNum _ =>
        tail ← lookup_global globals "tail";
        match tail with
        | VNum _ => Raise TypeError
        | VLayers [] => Ok ()
        | VLayers (_ :: _) => Raise (UnboundLocalError "follow_up_cost")
        end
    end
  else Ok ().

(** [for l1, l2 in zip(layers, layers[1:])], threading [penalties]. *)
Fixpoint pairs_loop (globals : gmap string pyval)
    (pairs : list (layer * layer)) (penalties : list Q) : result (list Q) :=
  match pairs with
  | [] => Ok penalties
  | (l1, l2) :: pairs' =>
      _ ← pair_body globals l1 l2;
      pairs_loop globals pairs' penalties
  end.

Definition compute_penalties_ (globals : gmap string pyval)
    (image_dims : list Q) (model : list layer) (rho image_dim : Q)
    : result (list Q) :=
  let layers := model in
  pairs_loop globals (zip layers (drop 1 layers)) [].

End Alternate.

(** ** [scale_gammas] *)

Module Rescale.

(** [tensor * a], element by element. *)
Definition scale_tensor (a : Q) (t : list Q) : list Q :=
  map (fun x => (x * a)%Q) t.

(** [l.weight.data = l.weight.data * a] *)
Definition scale_weight (a : Q) (l : layer) : layer :=
  match l with
  | LConv2d c =>
      LConv2d (mkConv2d (kernel_size c) (in_channels c) (out_channels c)
                        (scale_tensor a (conv_weight c)))
  | LBatchNorm2dEx b =>
      LBatchNorm2dEx (mkBatchNorm2dEx (scale_tensor a (bn_weight b)) (follow b))
  | LOther _ => l
  end.

(** The body of the loop for the pair of the layers at positions [k] and
    [k + 1].  The layers are objects shared with the model, so the model is
    the store and an assignment is an update at the layer's position. *)
Definition scale_pair (alpha alpha_ : Q) (store : list layer) (k : nat)
    : list layer :=
  match store !! k, store !! S k with
  | Some l1, Some l2 =>
      if is_bnx l1 && is_conv l2 then
        <[S k := scale_weight alpha_ l2]> (<[k := scale_weight alpha l1]> store)
      else store
  | _, _ => store
  end.

(** [for l1, l2 in zip(layers, layers[1:])] *)
Definition scale_loop (alpha alpha_ : Q) (model : list layer) : list layer :=
  foldl (scale_pair alpha alpha_) model (seq 0 (length model - 1)).

Definition scale_gammas (alpha : Q) (model : list layer) (scale_down : bool)
    : result (list layer) :=
  alpha_ ← py_div 1 alpha;
  if negb scale_down then
    let alpha_' := alpha in
    alpha' ← py_div 1 alpha;
    Ok (scale_loop alpha' alpha_' model)
  else
    Ok (scale_loop alpha alpha_ model).

(** Two tensors, and two layers, that hold the same numbers. *)
Definition tensor_eq (t u : list Q) : Prop := Forall2 Qeq t u.

Definition layer_eq (l m : layer) : Prop :=
  match l, m with
  | LConv2d c, LConv2d d =>
      kernel_size c = kernel_size d /\ in_channels c = in_channels d /\
      out_channels c = out_channels d /\
      tensor_eq (conv_weight c) (conv_weight d)
  | LBatchNorm2dEx b, LBatchNorm2dEx d =>
      follow b = follow d /\ tensor_eq (bn_weight b) (bn_weight d)
  | LOther s, LOther t => s = t
  | _, _ => False
  end.

Definition model_eq (m1 m2 : list layer) : Prop := Forall2 layer_eq m1 m2.

End Rescale.

(** ** [switch_to_follow] *)

Module Follow.

(** [layer.follow = True] *)
Definition set_follow (b : BatchNorm2dEx) : BatchNorm2dEx :=
  mkBatchNorm2dEx (bn_weight b) true.

(** [for layer in expand_model(model, [])], threading [first].  Every
    position of the sequence is a layer object of its own, visited once, so
    the assignment to [layer.follow] is an update at that position. *)
Fixpoint switch_loop (first : bool) (layers : list layer) : list layer :=
  match layers with
  | [] => []
  | LBatchNorm2dEx b :: layers' =>
      (if negb first then LBatchNorm2dEx (set_follow b) else LBatchNorm2dEx b)
        :: switch_loop false layers'
  | l :: layers' => l :: switch_loop first layers'
  end.

Definition switch_to_follow (model : list layer) : list layer :=
  switch_loop true model.

End Follow.

(** ** The parameter groups of [train_model] *)

Module Training.

(** ['bnx' in n] *)
Definition contains_bnx (n : string) : bool :=
  match String.index 0 "bnx" n with
  | Some _ => true
  | None => false
  end.

(** [[p for n, p in model.named_parameters() if 'bnx' not in n]] *)
Definition non_bn_params {P : Type} (named_parameters : list (string * P))
    : list P :=
  map snd (filter (fun np => contains_bnx np.1 = false) named_parameters).

(** [[p for n, p in model.named_parameters() if 'bnx' in n]] *)
Definition bn_params {P : Type} (named_parameters : list (string * P))
    : list P :=
  map snd (filter (fun np => contains_bnx np.1 = true) named_parameters).

End Training.

(** ** The proximal step *)

Module Proximal.

Definition sign (w : Q) : Q :=
  match (w ?= 0)%Q with
  | Lt => (-1)%Q
  | Eq => 0%Q
  | Gt => 1%Q
  end.

(** Modelled from the spec: the soft-threshold step of the proximal
    optimiser ([BatchNormSGD] of the module [sgd], which [main.py] imports
    as [bnopt]), for one scale value [w] with its layer's penalty [p]:
    [w' = sign(w) * max(|w| - lr * p, 0)]. *)
Definition soft_threshold (lr p w : Q) : Q :=
  (sign w * Qmax (Qabs w - lr * p) 0)%Q.

(** Modelled from the spec: one step of the proximal optimiser on one scale
    value, the momentum update followed by the soft threshold.  The result
    is the new value and the new momentum buffer. *)
Definition step (lr momentum p : Q) (param v grad : Q) : Q * Q :=
  let v' := (momentum * v + grad)%Q in
  let w := (param - lr * v')%Q in
  (soft_threshold lr p w, v').

End Proximal.

(** ** The channel compressor *)

Module Compressor.

(** Modelled from the spec: a pruning point of the trained model, that is a
    convolution and the normalisation that follows it ([compress_convs] and
    the layers it rewrites are in the modules [utils] and [models], which
    [main.py] imports).  The weight tensor has one row per output channel
    and, in a row, one kernel per input channel; the normalisation has one
    scale, shift and running statistic per channel. *)
Record block : Type := mkBlock {
  b_in : nat;
  b_out : nat;
  weight : list (list (list Q));
  scale : list Q;
  shift : list Q;
  running_mean : list Q;
  running_var : list Q
}.

(** Modelled from the spec: a scale is dropped when it is exactly zero. *)
Definition is_zero (s : Q) : bool := Qeq_bool s 0.

(** Modelled from the spec: the surviving-channel index set of a
    normalisation, in increasing order; [k] is the index of the head of
    [scales]. *)
Fixpoint survivors_from (k : nat) (scales : list Q) : list nat :=
  match scales with
  | [] => []
  | s :: scales' =>
      if is_zero s then survivors_from (S k) scales'
      else k :: survivors_from (S k) scales'
  end.

Definition survivors (scales : list Q) : list nat := survivors_from 0 scales.

(** Modelled from the spec: the entries of [xs] at the indices [idx], in the
    order of [idx] (the channel index remap). *)
Definition select {A : Type} (idx : list nat) (xs : list A) : list A :=
  omap (fun k => xs !! k) idx.

(** Modelled from the spec: the copy for one pruning point, with the
    surviving set [prev] of the previous pruning point and the surviving set
    [own] of this one. *)
Definition compress_block (prev own : list nat) (b : block) : block :=
  {| b_in := length prev;
     b_out := length own;
     weight := map (select prev) (select own (weight b));
     scale := select own (scale b);
     shift := select own (shift b);
     running_mean := select own (running_mean b);
     running_var := select own (running_var b) |}.

Fixpoint compress_blocks (prev : list nat) (bs : list block) : list block :=
  match bs with
  | [] => []
  | b :: bs' =>
      let own := survivors (scale b) in
      compress_block prev own b :: compress_blocks own bs'
  end.

(** Modelled from the spec: the surviving-channel count of every pruning
    point, and the input and output channel counts they give every
    convolution. *)
Definition surviving_counts (bs : list block) : list nat :=
  map (fun b => length (survivors (scale b))) bs.

Fixpoint surviving_shapes (prev : nat) (bs : list block) : list (nat * nat) :=
  match bs with
  | [] => []
  | b :: bs' =>
      let own := length (survivors (scale b)) in
      (prev, own) :: surviving_shapes own bs'
  end.

Definition input_channels (bs : list block) : nat :=
  match bs with
  | [] => 0
  | b :: _ => b_in b
  end.

(** Modelled from the spec: [compress(trained_model, target_architecture)].
    The target architecture, instantiated with the surviving counts, gives
    the input and output channel counts of its convolutions.  They are
    compared with the computed ones before any weight is copied; a pruning
    point with no surviving channel is reported and not built. *)
Definition compress (trained_model : list block)
    (target_architecture : list nat -> list (nat * nat))
    : result (list block) :=
  let counts := surviving_counts trained_model in
  let input := input_channels trained_model in
  if decide (target_architecture counts = surviving_shapes input trained_model)
  then
    if forallb (fun n => negb (Nat.eqb n 0)) counts
    then Ok (compress_blocks (seq 0 input) trained_model)
    else Raise PruningImpossible
  else Raise ShapeMismatch.

(** The number of zero-valued scales of a normalisation. *)
Definition zero_count (scales : list Q) : nat :=
  length (filter (fun s => is_zero s = true) scales).

End Compressor.

(** ** Definitions used to state the properties *)

(** Two computations agree: both return, with related values, or both raise
    the same exception. *)
Definition result_rel {A B : Type} (R : A -> B -> Prop)
    (r1 : result A) (r2 : result B) : Prop :=
  match r1, r2 with
  | Ok a, Ok b => R a b
  | Raise e1, Raise e2 => e1 = e2
  | _, _ => False
  end.

Module CompressorSpec.
Import Compressor.

(** The tensors of a pruning point have the sizes its channel counts give:
    one weight row, scale, shift and running statistic per output channel,
    and one kernel per input channel in every row. *)
Definition block_well_formed (b : block) : Prop :=
  b_out b = length (scale b) /\
  length (weight b) = length (scale b) /\
  Forall (fun row => length row = b_in b) (weight b) /\
  length (shift b) = length (scale b) /\
  length (running_mean b) = length (scale b) /\
  length (running_var b) = length (scale b).

(** A trained model on [input] channels: every pruning point is well
    formed and takes as many input channels as the one before it puts
    out. *)
Fixpoint chained (input : nat) (bs : list block) : Prop :=
  match bs with
  | [] => True
  | b :: bs' => b_in b = input /\ block_well_formed b /\ chained (b_out b) bs'
  end.

(** The tensors of [c] have exactly the sizes of the input and output
    channel counts [shape]: nothing is missing and nothing is added. *)
Definition fits (shape : nat * nat) (c : block) : Prop :=
  b_in c = shape.1 /\ b_out c = shape.2 /\
  length (weight c) = shape.2 /\
  Forall (fun row => length row = shape.1) (weight c) /\
  length (scale c) = shape.2 /\
  length (shift c) = shape.2 /\
  length (running_mean c) = shape.2 /\
  length (running_var c) = shape.2.

(** [c] holds every channel of [b] with a non-zero scale, in order, and no
    other. *)
Definition keeps_survivors (b c : block) : Prop :=
  scale c = filter (fun s => is_zero s = false) (scale b) /\
  length (scale c) + zero_count (scale b) = length (scale b).

End CompressorSpec.

Module PenaltySpec.

(** The penalty in the words of the specification:
    [rho * (1 / (i_w * i_h)) * (own_cost_term + follow_up_cost)]. *)
Definition spec_penalty (rho i_w i_h own_cost_term follow_up_cost : Q) : Q :=
  (rho * (1 / (i_w * i_h)) * (own_cost_term + follow_up_cost))%Q.

(** The sum of [kernel_cost f + image_dims[k]^2] over the convolutions [f] of
    [tail], where [k] starts at [start] and grows by one with every [f]. *)
Fixpoint follow_sum (image_dims : list Q) (start : nat)
    (tail : list Conv2d) : option Q :=
  match tail with
  | [] => Some 0%Q
  | f :: tail' =>
      d ← image_dims !! start;
      s ← follow_sum image_dims (S start) tail';
      Some ((Penalty.kernel_cost f + d ^ 2) + s)%Q
  end.

(** The follow-up cost in the words of the specification: every later
    convolution [f], at position [i + 1 + j] of the convolution subsequence,
    contributes its kernel cost and the square of its own output size,
    [image_dims[i + 1 + j]]. *)
Definition spec_follow_up_cost (image_dims : list Q) (layers : list Conv2d)
    (i : nat) : option Q :=
  follow_sum image_dims (S i) (drop (S i) layers).


(** The prunable normalisation layers of a model. *)
Definition prunable_layers (model : list layer) : list layer :=
  filter (fun l => is_bnx l = true) model.

End PenaltySpec.

Module Shapes.

(** What [compute_penalties] reads of a convolution. *)
Definition cost_profile (c : Conv2d) : (nat * nat) * nat :=
  (kernel_size c, in_channels c).

(** Two layers that differ at most in the numbers of their weight
    tensors: the same kind, shape and [follow] flag, and tensors of the same
    length. *)
Definition same_shape (l m : layer) : Prop :=
  match l, m with
  | LConv2d c, LConv2d d =>
      kernel_size c = kernel_size d /\ in_channels c = in_channels d /\
      out_channels c = out_channels d /\
      length (conv_weight c) = length (conv_weight d)
  | LBatchNorm2dEx b, LBatchNorm2dEx d =>
      follow b = follow d /\ length (bn_weight b) = length (bn_weight d)
  | LOther s, LOther t => s = t
  | _, _ => False
  end.

(** No normalisation of the sequence is immediately followed by a
    convolution. *)
Fixpoint no_bn_conv_pair (model : list layer) : bool :=
  match model with
  | l1 :: (l2 :: _) as model' =>
      negb (is_bnx l1 && is_conv l2) && no_bn_conv_pair model'
  | _ => true
  end.

(** No convolution of the sequence is immediately followed by a
    normalisation. *)
Fixpoint no_conv_bn_pair (model : list layer) : bool :=
  match model with
  | l1 :: (l2 :: _) as model' =>
      negb (is_conv l1 && is_bnx l2) && no_conv_bn_pair model'
  | _ => true
  end.

(** The weight tensor of a layer. *)
Definition weight_of (l : layer) : list Q :=
  match l with
  | LConv2d c => conv_weight c
  | LBatchNorm2dEx b => bn_weight b
  | LOther _ => []
  end.

(** A layer and its form after [switch_to_follow]: the same layer, or the
    same normalisation with [follow] set. *)
Definition follow_variant (l m : layer) : Prop :=
  m = l \/
  exists b, l = LBatchNorm2dEx b /\ m = LBatchNorm2dEx (Follow.set_follow b).

(** A layer with [follow] set when it is a normalisation. *)
Definition with_follow (l : layer) : layer :=
  match l with
  | LBatchNorm2dEx b => LBatchNorm2dEx (Follow.set_follow b)
  | _ => l
  end.

End Shapes.

(** ** Concrete models *)

Module Inputs.

Definition conv3x3 (c_in c_out : nat) : layer :=
  LConv2d (mkConv2d (3, 3) c_in c_out []).

Definition bnx (scales : list Q) : layer :=
  LBatchNorm2dEx (mkBatchNorm2dEx scales false).

Definition relu : layer := LOther "ReLU".

(** One convolution block on a three-channel image. *)
Definition one_block : list layer :=
  [conv3x3 3 64; bnx []; relu].

(** Two convolution blocks; the second convolution halves the resolution,
    so the output sizes of the two convolutions are 32 and 16. *)
Definition two_blocks : list layer :=
  [conv3x3 3 8; bnx []; relu; conv3x3 8 8; bnx []; relu].

Definition two_blocks_dims : list Q := [32%Q; 16%Q].

(** A convolution, its normalisation, and a second convolution right after
    the normalisation, with a few weights each. *)
Definition scaled_blocks : list layer :=
  [LConv2d (mkConv2d (1, 1) 1 2 [3%Q; (-5)%Q]);
   bnx [(1 # 2)%Q; 0%Q];
   LConv2d (mkConv2d (1, 1) 2 1 [7%Q; (2 # 3)%Q]);
   relu].

(** A trained model with two pruning points.  The first has four channels
    on a three-channel input, with the scales 0, 1/2, 0 and 4/5; the second
    has two channels, none of them zeroed.  A kernel is one number. *)
Definition first_block : Compressor.block :=
  Compressor.mkBlock 3 4
    [[[1%Q]; [2%Q]; [3%Q]]; [[4%Q]; [5%Q]; [6%Q]];
     [[7%Q]; [8%Q]; [9%Q]]; [[10%Q]; [11%Q]; [12%Q]]]
    [0%Q; (1 # 2)%Q; 0%Q; (4 # 5)%Q]
    [1%Q; 2%Q; 3%Q; 4%Q] [0%Q; 0%Q; 0%Q; 0%Q] [1%Q; 1%Q; 1%Q; 1%Q].

Definition second_block : Compressor.block :=
  Compressor.mkBlock 4 2
    [[[1%Q]; [2%Q]; [3%Q]; [4%Q]]; [[5%Q]; [6%Q]; [7%Q]; [8%Q]]]
    [1%Q; (-1)%Q] [0%Q; 0%Q] [0%Q; 0%Q] [1%Q; 1%Q].

Definition trained_blocks : list Compressor.block :=
  [first_block; second_block].

(** A target architecture that takes its channel counts from its
    argument, and one that keeps four channels at the first pruning
    point. *)
Definition matching_target (counts : list nat) : list (nat * nat) :=
  match counts with
  | [c1; c2] => [(3, c1); (c1, c2)]
  | _ => []
  end.

Definition fixed_target (counts : list nat) : list (nat * nat) :=
  [(3, 4); (4, 2)].

End Inputs.

Module MoreInputs.
Import PrimFloat.

(** Two convolutions of which only the second has a normalisation. *)
Definition unpaired_blocks : list layer :=
  [Inputs.conv3x3 3 8; Inputs.relu;
   Inputs.conv3x3 8 8; Inputs.bnx []; Inputs.relu].

(** The output sizes of the convolutions of [Inputs.two_blocks], as
    [int]s. *)
Definition two_blocks_sizes : list Z := [32%Z; 16%Z].

(** The double that the literal [0.1] denotes. *)
Definition one_tenth : PrimFloat.float := 0x1.999999999999ap-4%float.

End MoreInputs.

(** * Properties of [compute_penalties] *)

Module PenaltyFacts.
Import Penalty PenaltySpec.

Lemma py_div_ok (a b : Q) : ~ (b == 0)%Q -> py_div a b = Ok (a / b)%Q.
Proof.
  intros Hb. unfold py_div.
  destruct (Qeq_bool b 0) eqn:E; [|reflexivity].
  apply Qeq_bool_iff in E. contradiction.
Qed.

Lemma py_div_inv (a b q : Q) :
  py_div a b = Ok q -> ~ (b == 0)%Q /\ q = (a / b)%Q.
Proof.
  unfold py_div. destruct (Qeq_bool b 0) eqn:E; [discriminate|].
  intros [= <-]. split; [|reflexivity].
  intros H. apply Qeq_bool_iff in H. congruence.
Qed.

Lemma py_index_ok {A : Type} (xs : list A) (n : nat) :
  n < length xs -> exists x, xs !! n = Some x /\ py_index xs n = Ok x.
Proof.
  intros H. destruct (lookup_lt_is_Some_2 xs n H) as [x Hx].
  exists x. unfold py_index. rewrite Hx. auto.
Qed.

Lemma kernel_cost_nonneg (c : Conv2d) : (0 <= kernel_cost c)%Q.
Proof.
  unfold kernel_cost, of_nat. change 0%Q with (inject_Z 0).
  rewrite <- Zle_Qle. lia.
Qed.

(** The inner loop adds to [acc] the sum that starts at position [j + i] of
    [image_dims]. *)
Lemma follow_up_loop_sum image_dims i j tail acc c :
  follow_up_loop image_dims i j tail acc = Ok c ->
  exists s, follow_sum image_dims (j + i) tail = Some s /\ (c == acc + s)%Q.
Proof.
  revert j acc. induction tail as [|f tail IH]; intros j acc; simpl.
  - intros [= <-]. exists 0%Q. split; [reflexivity | ring].
  - unfold py_index. destruct (image_dims !! (j + i)) as [d|] eqn:Hd; simpl;
      [|discriminate].
    intros H. apply IH in H as (s & Hs & Hc). simpl in Hs.
    rewrite Hs. simpl. eexists. split; [reflexivity|].
    rewrite Hc. ring.
Qed.

Lemma follow_up_loop_returns image_dims i j tail acc :
  j + i + length tail <= length image_dims ->
  exists c, follow_up_loop image_dims i j tail acc = Ok c.
Proof.
  revert j acc. induction tail as [|f tail IH]; intros j acc; simpl.
  - eauto.
  - intros H. destruct (py_index_ok image_dims (j + i)) as (d & _ & ->);
      [lia|]. simpl. apply IH. simpl. lia.
Qed.


(** What one iteration of the outer loop appends. *)
Lemma ista_value rho image_dim image_dims layers i p :
  ista rho image_dim image_dims layers i = Ok p ->
  exists l cost,
    layers !! i = Some l /\
    follow_up_cost image_dims layers i = Ok cost /\
    ~ (image_dim == 0)%Q /\
    (p == rho * (kernel_cost l + cost))%Q.
Proof.
  unfold ista, py_index. destruct (layers !! i) as [l|]; simpl; [|discriminate].
  destruct (follow_up_cost image_dims layers i) as [cost|]; simpl;
    [|discriminate].
  destruct (py_div 1 image_dim) as [inv|] eqn:Hinv; simpl; [|discriminate].
  apply py_div_inv in Hinv as [Hd ->]. intros [= <-].
  exists l, cost. repeat split; try assumption. field. exact Hd.
Qed.

Lemma ista_returns rho image_dim image_dims layers i :
  length image_dims = length layers -> ~ (image_dim == 0)%Q ->
  i < length layers ->
  exists p, ista rho image_dim image_dims layers i = Ok p.
Proof.
  intros Hlen Hd Hi. unfold ista.
  destruct (py_index_ok layers i Hi) as (l & _ & ->). simpl.
  destruct (follow_up_loop_returns image_dims i 0 (drop (S i) layers) 0%Q)
    as [cost Hcost].
  { rewrite length_drop. lia. }
  unfold follow_up_cost. rewrite Hcost. simpl.
  rewrite (py_div_ok 1 image_dim Hd). simpl. eauto.
Qed.

(** The outer loop keeps a relation between two runs that holds for every
    iteration. *)
Lemma penalties_loop_rel (R : Q -> Q -> Prop) rho1 d1 rho2 d2 image_dims
    layers range acc1 acc2 :
  (forall i, result_rel R (ista rho1 d1 image_dims layers i)
                          (ista rho2 d2 image_dims layers i)) ->
  Forall2 R acc1 acc2 ->
  result_rel (Forall2 R)
    (penalties_loop rho1 d1 image_dims layers range acc1)
    (penalties_loop rho2 d2 image_dims layers range acc2).
Proof.
  intros Hista. revert acc1 acc2.
  induction range as [|i range IH]; intros acc1 acc2 Hacc; simpl.
  - exact Hacc.
  - specialize (Hista i).
    destruct (ista rho1 d1 image_dims layers i) as [p1|e1],
             (ista rho2 d2 image_dims layers i) as [p2|e2];
      simpl in *; try contradiction; [|assumption].
    apply IH. apply Forall2_app; [assumption|]. constructor; [assumption|].
    constructor.
Qed.

(** When every iteration returns, so does the loop: it appends one value
    per index of the range, in the order of the range. *)
Lemma penalties_loop_returns rho d image_dims layers range acc :
  (forall i, i ∈ range -> exists p, ista rho d image_dims layers i = Ok p) ->
  exists ps,
    penalties_loop rho d image_dims layers range acc = Ok (acc ++ ps) /\
    Forall2 (fun i p => ista rho d image_dims layers i = Ok p) range ps.
Proof.
  revert acc. induction range as [|i range IH]; intros acc Hall; simpl.
  - exists []. rewrite app_nil_r. split; [reflexivity | constructor].
  - destruct (Hall i) as [p Hp]; [left|]. rewrite Hp. simpl.
    destruct (IH (acc ++ [p])) as (ps & Hloop & Hps).
    { intros k Hk. apply Hall. right. exact Hk. }
    exists (p :: ps). rewrite Hloop, <- app_assoc. simpl.
    split; [reflexivity|]. constructor; assumption.
Qed.

Lemma compute_penalties_returns image_dims model rho image_dim :
  length image_dims = length (conv_layers model) ->
  ~ (image_dim == 0)%Q ->
  exists ps,
    compute_penalties image_dims model rho image_dim = Ok ps /\
    Forall2 (fun i p => ista rho image_dim image_dims (conv_layers model) i
                        = Ok p)
            (seq 0 (length (conv_layers model))) ps.
Proof.
  intros Hlen Hd. unfold compute_penalties.
  destruct (penalties_loop_returns rho image_dim image_dims
              (conv_layers model) (seq 0 (length (conv_layers model))) [])
    as (ps & Hloop & Hps).
  - intros i Hi. apply elem_of_seq in Hi.
    apply ista_returns; [assumption | assumption | lia].
  - exists ps. split; assumption.
Qed.


(** The two exceptions of [compute_penalties]: a zero [image_dim], and a
    spatial trace that is too short for the index [j + i]. *)
Example compute_penalties_zero_image_dim :
  compute_penalties Inputs.two_blocks_dims Inputs.two_blocks 1 0
  = Raise ZeroDivisionError.
Proof. reflexivity. Qed.

Example compute_penalties_short_trace :
  compute_penalties [] Inputs.two_blocks 1 40 = Raise IndexError.
Proof. reflexivity. Qed.

Lemma follow_up_cost_sum image_dims layers i c :
  follow_up_cost image_dims layers i = Ok c ->
  exists s, follow_sum image_dims i (drop (S i) layers) = Some s /\ (c == s)%Q.
Proof.
  intros H. apply follow_up_loop_sum in H as (s & Hs & Hc).
  exists s. split; [exact Hs|]. rewrite Hc. ring.
Qed.


(** C2, on the code: for the one-block model, [rho = 1] and the default
    [image_dim = 40], [compute_penalties] returns the single penalty 27, the
    kernel cost 3 * 3 * 3 itself, and not 27 / 1600, the value of
    [rho * (1 / (i_w * i_h)) * (own_cost_term + follow_up_cost)]: the sum of
    the cost terms is not divided by [i_w * i_h]. *)
Theorem compute_penalties_not_divided_by_area :
  exists p,
    compute_penalties [32%Q] Inputs.one_block 1 default_image_dim = Ok [p] /\
    (p == 27)%Q /\
    (spec_penalty 1 40 40 27 0 == 27 # 1600)%Q /\
    ~ (p == spec_penalty 1 40 40 27 0)%Q.
Proof.
  eexists. split; [vm_compute; reflexivity|].
  repeat split; try reflexivity. intros H. discriminate H.
Qed.

(** C3, on the code: in the two-block model, whose convolutions have the
    output sizes 32 and 16, the follow-up cost of the first convolution is
    3 * 3 * 8 + 32^2 = 1096: the second convolution is charged the output
    size of the convolution before it and not its own, which would give
    3 * 3 * 8 + 16^2 = 328. *)
Theorem follow_up_cost_uses_previous_size :
  exists c s,
    follow_up_cost Inputs.two_blocks_dims (conv_layers Inputs.two_blocks) 0
      = Ok c /\
    (c == 1096)%Q /\
    spec_follow_up_cost Inputs.two_blocks_dims (conv_layers Inputs.two_blocks) 0
      = Some s /\
    (s == 328)%Q /\
    ~ (c == s)%Q.
Proof.
  do 2 eexists. split; [vm_compute; reflexivity|].
  split; [reflexivity|]. split; [vm_compute; reflexivity|].
  split; [reflexivity|]. intros H. discriminate H.
Qed.

(** C4, as amended: in exact arithmetic, scaling [rho] by [k] scales every
    penalty that [compute_penalties] returns by exactly [k] (and the two
    calls raise the same exception when one of them raises); with [rho = 0]
    every returned penalty is zero; and when the spatial trace is aligned
    with the convolutions and [image_dim] is not zero the call returns, with
    one penalty per convolution.  Over doubles the scaling is exact only up
    to rounding, see the module [PenaltyDoubles]. *)
Theorem compute_penalties_rho_scaling image_dims model rho image_dim k :
  result_rel (Forall2 (fun p p' => (p' == k * p)%Q))
    (compute_penalties image_dims model rho image_dim)
    (compute_penalties image_dims model (k * rho) image_dim) /\
  result_rel (fun _ zs => Forall (fun z => (z == 0)%Q) zs)
    (compute_penalties image_dims model rho image_dim)
    (compute_penalties image_dims model 0 image_dim) /\
  (length image_dims = length (conv_layers model) ->
   ~ (image_dim == 0)%Q ->
   exists ps zs,
     compute_penalties image_dims model rho image_dim = Ok ps /\
     compute_penalties image_dims model 0 image_dim = Ok zs /\
     length ps = length (conv_layers model) /\
     length zs = length (conv_layers model)).
Proof.
  assert (Hrel : forall rho' (R : Q -> Q -> Prop),
    (forall x, R (rho * x)%Q (rho' * x)%Q) ->
    (forall x y z, (y == z)%Q -> R x y -> R x z) ->
    (forall x y z, (x == y)%Q -> R x z -> R y z) ->
    result_rel (Forall2 R)
      (compute_penalties image_dims model rho image_dim)
      (compute_penalties image_dims model rho' image_dim)).
  { intros rho' R HR Hr Hl. apply penalties_loop_rel; [|constructor].
    intros i. unfold ista.
    destruct (py_index (conv_layers model) i) as [l|]; simpl; [|reflexivity].
    destruct (follow_up_cost image_dims (conv_layers model) i) as [c|]; simpl;
      [|reflexivity].
    destruct (py_div 1 image_dim) as [inv|]; simpl; [|reflexivity].
    apply HR. }
  split; [|split].
  - apply Hrel.
    + intros x. ring.
    + intros x y z Hyz Hxy. rewrite <- Hyz. exact Hxy.
    + intros x y z Hxy Hxz. rewrite <- Hxy. exact Hxz.
  - pose proof (Hrel 0%Q (fun _ z => (z == 0)%Q)) as H.
    destruct (compute_penalties image_dims model rho image_dim) as [ps|e],
             (compute_penalties image_dims model 0 image_dim) as [zs|e'];
      simpl in *; try (apply H; intros; try ring; try lra; fail).
    assert (HF : Forall2 (fun _ z : Q => (z == 0)%Q) ps zs).
    { apply H; [intros; ring | intros x y z Hyz Hy; lra | auto]. }
    clear -HF. induction HF; constructor; assumption.
  - intros Hlen Hd.
    destruct (compute_penalties_returns image_dims model rho image_dim Hlen Hd)
      as (ps & Hps & HF).
    destruct (compute_penalties_returns image_dims model 0 image_dim Hlen Hd)
      as (zs & Hzs & HZ).
    exists ps, zs. repeat split; try assumption.
    + apply Forall2_length in HF. rewrite length_seq in HF. auto.
    + apply Forall2_length in HZ. rewrite length_seq in HZ. auto.
Qed.

Lemma compute_penalties_rho_scaling_witness :
  exists ps zs,
    compute_penalties Inputs.two_blocks_dims Inputs.two_blocks (1 # 10) 40
      = Ok ps /\
    compute_penalties Inputs.two_blocks_dims Inputs.two_blocks 0 40 = Ok zs /\
    length ps = 2 /\ length zs = 2.
Proof.
  destruct (compute_penalties_rho_scaling Inputs.two_blocks_dims
              Inputs.two_blocks (1 # 10) 40 3) as (_ & _ & H).
  apply H; [reflexivity | intros E; discriminate E].
Defined.



(** C10, as amended: in exact arithmetic, for any two non-zero values of
    [image_dim], [compute_penalties] returns the same penalties (or raises
    the same exception): the factor [1 / i_w * i_h] is 1.  Over doubles the
    factor can round away from 1, see the module [PenaltyDoubles]. *)
Theorem compute_penalties_image_dim_irrelevant image_dims model rho d1 d2 :
  ~ (d1 == 0)%Q -> ~ (d2 == 0)%Q ->
  result_rel (Forall2 Qeq)
    (compute_penalties image_dims model rho d1)
    (compute_penalties image_dims model rho d2) /\
  (exists inv, py_div 1 d1 = Ok inv /\ (inv * d1 == 1)%Q).
Proof.
  intros H1 H2. split.
  - apply penalties_loop_rel; [|constructor].
    intros i. unfold ista.
    destruct (py_index (conv_layers model) i) as [l|]; simpl; [|reflexivity].
    destruct (follow_up_cost image_dims (conv_layers model) i) as [c|]; simpl;
      [|reflexivity].
    rewrite (py_div_ok 1 d1 H1), (py_div_ok 1 d2 H2). simpl.
    field. split; assumption.
  - exists (1 / d1)%Q. split; [apply py_div_ok; exact H1|].
    field. exact H1.
Qed.

Lemma compute_penalties_image_dim_irrelevant_witness :
  result_rel (Forall2 Qeq)
    (compute_penalties Inputs.two_blocks_dims Inputs.two_blocks (1 # 10) 40)
    (compute_penalties Inputs.two_blocks_dims Inputs.two_blocks (1 # 10) 7) /\
  (exists inv, py_div 1 40 = Ok inv /\ (inv * 40 == 1)%Q).
Proof.
  apply (compute_penalties_image_dim_irrelevant Inputs.two_blocks_dims
           Inputs.two_blocks (1 # 10) 40 7).
  - intros E. discriminate E.
  - intros E. discriminate E.
Defined.

End PenaltyFacts.

(** * Properties of [compute_penalties_] *)

Module AlternateFacts.
Import Alternate.

(** [penalties] is never appended to. *)
Lemma pairs_loop_returns_penalties globals pairs penalties ps :
  pairs_loop globals pairs penalties = Ok ps -> ps = penalties.
Proof.
  induction pairs as [|[l1 l2] pairs IH]; simpl.
  - intros [= <-]. reflexivity.
  - destruct (pair_body globals l1 l2); simpl; [exact IH | discriminate].
Qed.

(** The first pair of a convolution and a normalisation stops the loop at
    the read of [num_zeros]. *)
Lemma pairs_loop_name_error globals pairs penalties :
  globals !! "num_zeros" = None ->
  Exists (fun p => is_conv p.1 && is_bnx p.2 = true) pairs ->
  pairs_loop globals pairs penalties = Raise (NameError "num_zeros").
Proof.
  intros Hg. induction pairs as [|[l1 l2] pairs IH]; intros Hex.
  - inversion Hex.
  - simpl. unfold pair_body.
    destruct (is_conv l1 && is_bnx l2) eqn:E.
    + unfold lookup_global. rewrite Hg. reflexivity.
    + simpl. apply IH. inversion Hex as [? ? H|]; subst; [|assumption].
      simpl in H. congruence.
Qed.

(** C9: [compute_penalties_] never returns anything but the empty list, and,
    [num_zeros] being bound nowhere, it raises the name error of
    [num_zeros] on every model in which a convolution is immediately
    followed by an extended batch normalisation. *)
Theorem compute_penalties__undefined_name globals image_dims model rho
    image_dim :
  (forall ps,
     compute_penalties_ globals image_dims model rho image_dim = Ok ps ->
     ps = []) /\
  (globals !! "num_zeros" = None ->
   forall k l1 l2,
     model !! k = Some l1 -> model !! S k = Some l2 ->
     is_conv l1 = true -> is_bnx l2 = true ->
     compute_penalties_ globals image_dims model rho image_dim
       = Raise (NameError "num_zeros")).
Proof.
  unfold compute_penalties_. split.
  - intros ps. apply pairs_loop_returns_penalties.
  - intros Hg k l1 l2 H1 H2 Hc Hb.
    apply pairs_loop_name_error; [exact Hg|].
    apply Exists_exists. exists (l1, l2). split.
    + apply list_elem_of_lookup. exists k.
      rewrite lookup_zip_with, H1. simpl.
      rewrite lookup_drop. simpl. rewrite H2. reflexivity.
    + simpl. rewrite Hc, Hb. reflexivity.
Qed.

Lemma compute_penalties__undefined_name_witness :
  compute_penalties_ ∅ Inputs.two_blocks_dims Inputs.two_blocks (1 # 10) 40
    = Raise (NameError "num_zeros").
Proof.
  destruct (compute_penalties__undefined_name ∅ Inputs.two_blocks_dims
              Inputs.two_blocks (1 # 10) 40) as [_ H].
  apply (H eq_refl 0 (Inputs.conv3x3 3 8) (Inputs.bnx [])); reflexivity.
Defined.

End AlternateFacts.

(** * Properties of [scale_gammas] *)

Module RescaleFacts.
Import Rescale.

Lemma scale_pair_cons alpha alpha_ x store k :
  scale_pair alpha alpha_ (x :: store) (S k)
  = x :: scale_pair alpha alpha_ store k.
Proof.
  unfold scale_pair. simpl.
  destruct (store !! k) as [l1|]; [|reflexivity].
  destruct (store !! S k) as [l2|]; [|reflexivity].
  destruct (is_bnx l1 && is_conv l2); reflexivity.
Qed.

Lemma foldl_scale_pair_cons alpha alpha_ x store s n :
  foldl (scale_pair alpha alpha_) (x :: store) (seq (S s) n)
  = x :: foldl (scale_pair alpha alpha_) store (seq s n).
Proof.
  revert s store. induction n as [|n IH]; intros s store; simpl.
  - reflexivity.
  - rewrite scale_pair_cons. apply IH.
Qed.

(** The loop, read along the list. *)
Lemma scale_loop_nil alpha alpha_ : scale_loop alpha alpha_ [] = [].
Proof. reflexivity. Qed.

Lemma scale_loop_one alpha alpha_ x : scale_loop alpha alpha_ [x] = [x].
Proof. reflexivity. Qed.

Lemma scale_loop_cons alpha alpha_ l1 l2 rest :
  scale_loop alpha alpha_ (l1 :: l2 :: rest)
  = if is_bnx l1 && is_conv l2
    then scale_weight alpha l1
           :: scale_loop alpha alpha_ (scale_weight alpha_ l2 :: rest)
    else l1 :: scale_loop alpha alpha_ (l2 :: rest).
Proof.
  unfold scale_loop. simpl length. rewrite !Nat.sub_succ, !Nat.sub_0_r.
  simpl seq. simpl foldl. unfold scale_pair at 2. simpl.
  destruct (is_bnx l1 && is_conv l2); apply foldl_scale_pair_cons.
Qed.

Lemma scale_loop_skip alpha alpha_ x rest :
  is_bnx x = false ->
  scale_loop alpha alpha_ (x :: rest) = x :: scale_loop alpha alpha_ rest.
Proof.
  intros Hx. destruct rest as [|l2 rest]; [reflexivity|].
  rewrite scale_loop_cons, Hx. reflexivity.
Qed.

Lemma scale_weight_is_bnx a l : is_bnx (scale_weight a l) = is_bnx l.
Proof. destruct l; reflexivity. Qed.

Lemma scale_weight_is_conv a l : is_conv (scale_weight a l) = is_conv l.
Proof. destruct l; reflexivity. Qed.

Lemma is_conv_not_bnx l : is_conv l = true -> is_bnx l = false.
Proof. destruct l; simpl; congruence. Qed.

(** Induction along the pairs the loop visits. *)
Lemma scale_loop_ind alpha alpha_ (P : list layer -> list layer -> Prop) :
  P [] [] ->
  (forall x, P [x] [x]) ->
  (forall l1 l2 rest,
     is_bnx l1 = true -> is_conv l2 = true ->
     P rest (scale_loop alpha alpha_ rest) ->
     P (l1 :: l2 :: rest)
       (scale_weight alpha l1 :: scale_weight alpha_ l2
          :: scale_loop alpha alpha_ rest)) ->
  (forall l1 l2 rest,
     is_bnx l1 && is_conv l2 = false ->
     P (l2 :: rest) (scale_loop alpha alpha_ (l2 :: rest)) ->
     P (l1 :: l2 :: rest) (l1 :: scale_loop alpha alpha_ (l2 :: rest))) ->
  forall model, P model (scale_loop alpha alpha_ model).
Proof.
  intros Hnil Hone Hpair Hskip model.
  induction model as [model IH] using (induction_ltof1 _ (@length layer)).
  unfold ltof in IH.
  destruct model as [|l1 [|l2 rest]]; [apply Hnil | apply Hone |].
  rewrite scale_loop_cons.
  destruct (is_bnx l1 && is_conv l2) eqn:E.
  - apply andb_true_iff in E as [Hb Hc].
    rewrite scale_loop_skip
      by (rewrite scale_weight_is_bnx; apply is_conv_not_bnx, Hc).
    apply Hpair; [assumption | assumption | apply IH; simpl; lia].
  - apply Hskip; [assumption | apply IH; simpl; lia].
Qed.

(** The loop changes no layer's kind. *)
Lemma scale_loop_kinds alpha alpha_ model :
  Forall2 (fun l l' => is_bnx l' = is_bnx l /\ is_conv l' = is_conv l)
    model (scale_loop alpha alpha_ model).
Proof.
  apply scale_loop_ind.
  - constructor.
  - intros x. repeat constructor.
  - intros l1 l2 rest _ _ IH.
    repeat constructor;
      auto using scale_weight_is_bnx, scale_weight_is_conv.
  - intros l1 l2 rest _ IH. constructor; [split; reflexivity | exact IH].
Qed.

(** Every normalisation that a convolution follows is scaled by [alpha],
    and that convolution by [alpha_]. *)
Lemma scale_loop_lookup_pair alpha alpha_ model :
  forall k l1 l2,
    model !! k = Some l1 -> model !! S k = Some l2 ->
    is_bnx l1 = true -> is_conv l2 = true ->
    scale_loop alpha alpha_ model !! k = Some (scale_weight alpha l1) /\
    scale_loop alpha alpha_ model !! S k = Some (scale_weight alpha_ l2).
Proof.
  pattern model, (scale_loop alpha alpha_ model). apply scale_loop_ind.
  - intros k l1 l2 H. discriminate H.
  - intros x k l1 l2 _ H. discriminate H.
  - intros m1 m2 rest Hb Hc IH k l1 l2 H1 H2 Hb1 Hc2.
    destruct k as [|[|k]]; simpl in *.
    + injection H1 as <-. injection H2 as <-. auto.
    + injection H1 as <-. apply is_conv_not_bnx in Hc. congruence.
    + apply IH; assumption.
  - intros m1 m2 rest Hcond IH k l1 l2 H1 H2 Hb1 Hc2.
    destruct k as [|k]; simpl in *.
    + injection H1 as <-. injection H2 as <-.
      rewrite Hb1, Hc2 in Hcond. discriminate Hcond.
    + apply IH; assumption.
Qed.

Lemma tensor_eq_refl t : tensor_eq t t.
Proof. induction t; constructor; [reflexivity | assumption]. Qed.

Lemma layer_eq_refl l : layer_eq l l.
Proof. destruct l; simpl; auto using tensor_eq_refl. Qed.

Lemma model_eq_refl m : model_eq m m.
Proof. induction m; constructor; [apply layer_eq_refl | assumption]. Qed.

Lemma scale_tensor_inverse a b t :
  (forall x, x * a * b == x)%Q ->
  tensor_eq (scale_tensor b (scale_tensor a t)) t.
Proof.
  intros Hab. induction t as [|x t IH]; constructor; [apply Hab | exact IH].
Qed.

Lemma scale_weight_inverse a b l :
  (forall x, x * a * b == x)%Q ->
  layer_eq (scale_weight b (scale_weight a l)) l.
Proof.
  intros Hab. destruct l; simpl; auto using scale_tensor_inverse.
Qed.

(** A second pass with inverse factors undoes the first. *)
Lemma scale_loop_inverse a a_ b b_ model :
  (forall x, x * a * b == x)%Q -> (forall x, x * a_ * b_ == x)%Q ->
  model_eq (scale_loop b b_ (scale_loop a a_ model)) model.
Proof.
  intros Hab Hab_.
  apply (scale_loop_ind a a_ (fun m r => model_eq (scale_loop b b_ r) m)).
  - constructor.
  - intros x. apply model_eq_refl.
  - intros l1 l2 rest Hb Hc IH.
    rewrite scale_loop_cons, scale_weight_is_bnx, scale_weight_is_conv, Hb, Hc.
    simpl.
    rewrite scale_loop_skip.
    2:{ rewrite !scale_weight_is_bnx. apply is_conv_not_bnx, Hc. }
    constructor; [apply scale_weight_inverse, Hab|].
    constructor; [apply scale_weight_inverse, Hab_ | exact IH].
  - intros l1 l2 rest Hcond IH.
    pose proof (scale_loop_kinds a a_ (l2 :: rest)) as Hk.
    destruct (scale_loop a a_ (l2 :: rest)) as [|l2' rest'] eqn:E;
      [inversion Hk|].
    inversion Hk as [|? ? ? ? [Hb' Hc'] _]; subst.
    rewrite scale_loop_cons, Hc', Hcond.
    constructor; [apply layer_eq_refl | exact IH].
Qed.

Lemma scale_gammas_shrink alpha model :
  ~ (alpha == 0)%Q ->
  scale_gammas alpha model true = Ok (scale_loop alpha (1 / alpha) model).
Proof.
  intros Ha. unfold scale_gammas.
  rewrite (PenaltyFacts.py_div_ok 1 alpha Ha). reflexivity.
Qed.

Lemma scale_gammas_grow alpha model :
  ~ (alpha == 0)%Q ->
  scale_gammas alpha model false = Ok (scale_loop (1 / alpha) alpha model).
Proof.
  intros Ha. unfold scale_gammas.
  rewrite (PenaltyFacts.py_div_ok 1 alpha Ha). reflexivity.
Qed.

Example scale_gammas_zero_alpha :
  scale_gammas 0 Inputs.scaled_blocks true = Raise ZeroDivisionError.
Proof. reflexivity. Qed.

(** The shrink pass on a model in which the second convolution directly
    follows the normalisation: the first convolution is left alone. *)
Example scale_gammas_shrink_scaled_blocks :
  exists shrunk,
    scale_gammas 2 Inputs.scaled_blocks true = Ok shrunk /\
    model_eq shrunk
      [LConv2d (mkConv2d (1, 1) 1 2 [3%Q; (-5)%Q]);
       Inputs.bnx [1%Q; 0%Q];
       LConv2d (mkConv2d (1, 1) 2 1 [(7 # 2)%Q; (1 # 3)%Q]);
       Inputs.relu].
Proof.
  eexists. split; [vm_compute; reflexivity|].
  repeat constructor.
Qed.

(** C5: for [alpha <> 0], the shrink pass multiplies every scale of a
    normalisation that a convolution immediately follows by [alpha] and
    every weight of that convolution by [1 / alpha], and leaves their other
    fields alone; the grow pass, on the result, multiplies the same tensors
    by [1 / alpha] and by [alpha]; and the model after both passes holds the
    original parameter values. *)
Theorem scale_gammas_round_trip alpha model :
  ~ (alpha == 0)%Q ->
  exists shrunk restored,
    scale_gammas alpha model true = Ok shrunk /\
    scale_gammas alpha shrunk false = Ok restored /\
    model_eq restored model /\
    forall k b c,
      model !! k = Some (LBatchNorm2dEx b) ->
      model !! S k = Some (LConv2d c) ->
      shrunk !! k
        = Some (LBatchNorm2dEx
                  (mkBatchNorm2dEx
                     (map (fun x => (x * alpha)%Q) (bn_weight b))
                     (follow b))) /\
      shrunk !! S k
        = Some (LConv2d
                  (mkConv2d (kernel_size c) (in_channels c) (out_channels c)
                     (map (fun y => (y * (1 / alpha))%Q) (conv_weight c)))) /\
      restored !! k
        = Some (LBatchNorm2dEx
                  (mkBatchNorm2dEx
                     (map (fun x => (x * (1 / alpha))%Q)
                        (map (fun x => (x * alpha)%Q) (bn_weight b)))
                     (follow b))) /\
      restored !! S k
        = Some (LConv2d
                  (mkConv2d (kernel_size c) (in_channels c) (out_channels c)
                     (map (fun y => (y * alpha)%Q)
                        (map (fun y => (y * (1 / alpha))%Q)
                           (conv_weight c))))).
Proof.
  intros Ha.
  exists (scale_loop alpha (1 / alpha) model).
  exists (scale_loop (1 / alpha) alpha (scale_loop alpha (1 / alpha) model)).
  split; [apply scale_gammas_shrink, Ha|].
  split; [apply scale_gammas_grow, Ha|].
  split.
  - apply scale_loop_inverse; intros x; field; exact Ha.
  - intros k b c Hb Hc.
    destruct (scale_loop_lookup_pair alpha (1 / alpha) model k _ _ Hb Hc
                eq_refl eq_refl) as [S1 S2].
    destruct (scale_loop_lookup_pair (1 / alpha) alpha
                (scale_loop alpha (1 / alpha) model) k _ _ S1 S2
                eq_refl eq_refl) as [R1 R2].
    split; [exact S1|]. split; [exact S2|]. split; [exact R1 | exact R2].
Qed.

Lemma scale_gammas_round_trip_witness :
  exists shrunk restored,
    scale_gammas 2 Inputs.scaled_blocks true = Ok shrunk /\
    scale_gammas 2 shrunk false = Ok restored /\
    model_eq restored Inputs.scaled_blocks /\
    shrunk !! 1 = Some (Inputs.bnx [((1 # 2) * 2)%Q; (0 * 2)%Q]) /\
    shrunk !! 2
      = Some (LConv2d (mkConv2d (1, 1) 2 1
                         [(7 * (1 / 2))%Q; ((2 # 3) * (1 / 2))%Q])).
Proof.
  destruct (scale_gammas_round_trip 2 Inputs.scaled_blocks)
    as (shrunk & restored & H1 & H2 & H3 & H4).
  - intros E. discriminate E.
  - exists shrunk, restored.
    destruct (H4 1 (mkBatchNorm2dEx [(1 # 2)%Q; 0%Q] false)
                (mkConv2d (1, 1) 2 1 [7%Q; (2 # 3)%Q]) eq_refl eq_refl)
      as (S1 & S2 & _).
    auto.
Defined.

End RescaleFacts.

(** * Properties of the proximal step *)

Module ProximalFacts.
Import Proximal.

Lemma sign_pos w : (0 < w)%Q -> sign w = 1%Q.
Proof.
  intros H. unfold sign. rewrite (proj1 (Qgt_alt w 0) H). reflexivity.
Qed.

Lemma sign_neg w : (w < 0)%Q -> sign w = (-1)%Q.
Proof.
  intros H. unfold sign. rewrite (proj1 (Qlt_alt w 0) H). reflexivity.
Qed.

Lemma sign_zero w : (w == 0)%Q -> sign w = 0%Q.
Proof.
  intros H. unfold sign. rewrite (proj1 (Qeq_alt w 0) H). reflexivity.
Qed.

Lemma threshold_zero lr p w :
  (Qabs w <= lr * p)%Q -> (Qmax (Qabs w - lr * p) 0 == 0)%Q.
Proof. intros H. apply Q.max_r. lra. Qed.

Lemma threshold_pos lr p w :
  (lr * p < Qabs w)%Q -> (Qmax (Qabs w - lr * p) 0 == Qabs w - lr * p)%Q.
Proof. intros H. apply Q.max_l. lra. Qed.

(** With a zero learning rate the threshold step changes nothing. *)
Lemma soft_threshold_zero_lr p w : (soft_threshold 0 p w == w)%Q.
Proof.
  unfold soft_threshold.
  assert (Hmax : (Qmax (Qabs w - 0 * p) 0 == Qabs w)%Q).
  { pose proof (Qabs_nonneg w). rewrite Q.max_l by lra. ring. }
  rewrite Hmax.
  destruct (Q_dec w 0) as [[Hw|Hw]|Hw].
  - rewrite (sign_neg w Hw), Qabs_neg by lra. ring.
  - rewrite (sign_pos w Hw), Qabs_pos by lra. ring.
  - rewrite (sign_zero w Hw), Hw. reflexivity.
Qed.

Example step_thresholds :
  (fst (step (1 # 10) (9 # 10) 2 (1 # 4) 0 (1 # 2)) == 0)%Q /\
  (fst (step (1 # 10) (9 # 10) 2 1 0 (1 # 2)) == 3 # 4)%Q.
Proof. split; reflexivity. Qed.

(** C1: with [p >= 0] and [lr > 0], the threshold step returns 0 when
    [|w| <= lr * p], and otherwise a value with the sign of [w] and the
    magnitude [|w| - lr * p]. *)
Theorem soft_threshold_correct lr p w :
  (0 <= p)%Q -> (0 < lr)%Q ->
  soft_threshold lr p w = (sign w * Qmax (Qabs w - lr * p) 0)%Q /\
  ((Qabs w <= lr * p)%Q -> (soft_threshold lr p w == 0)%Q) /\
  ((lr * p < Qabs w)%Q ->
   sign (soft_threshold lr p w) = sign w /\
   (Qabs (soft_threshold lr p w) == Qabs w - lr * p)%Q).
Proof.
  intros Hp Hlr. split; [reflexivity|]. unfold soft_threshold. split.
  - intros H. rewrite (threshold_zero lr p w H). ring.
  - intros H. pose proof (threshold_pos lr p w H) as Hmax.
    set (m := Qmax (Qabs w - lr * p) 0) in *.
    assert (Hlp : (0 <= lr * p)%Q) by (apply Qmult_le_0_compat; lra).
    assert (Hm : (0 < m)%Q) by lra.
    destruct (Q_dec w 0) as [[Hw|Hw]|Hw].
    + rewrite (sign_neg w Hw). split.
      * apply sign_neg. lra.
      * rewrite Qabs_neg by lra. rewrite Hmax. ring.
    + rewrite (sign_pos w Hw). split.
      * apply sign_pos. lra.
      * rewrite Qabs_pos by lra. rewrite Hmax. ring.
    + exfalso. assert (Qabs w == 0)%Q by (rewrite Hw; reflexivity). lra.
Qed.

Lemma soft_threshold_correct_witness :
  (soft_threshold (1 # 100) 2 (1 # 100) == 0)%Q /\
  sign (soft_threshold (1 # 100) 2 (- (1 # 2))) = sign (- (1 # 2)) /\
  (Qabs (soft_threshold (1 # 100) 2 (- (1 # 2)))
   == Qabs (- (1 # 2)) - (1 # 100) * 2)%Q.
Proof.
  split.
  - apply (soft_threshold_correct (1 # 100) 2 (1 # 100)).
    + intros E. discriminate E.
    + reflexivity.
    + intros E. discriminate E.
  - apply (soft_threshold_correct (1 # 100) 2 (- (1 # 2))).
    + intros E. discriminate E.
    + reflexivity.
    + reflexivity.
Defined.

End ProximalFacts.

(** * Properties of the channel compressor *)

Module CompressorFacts.
Import Compressor.

Lemma survivors_from_bounds k scales :
  Forall (fun i => k <= i < k + length scales) (survivors_from k scales).
Proof.
  revert k. induction scales as [|s scales IH]; intros k; simpl.
  - constructor.
  - specialize (IH (S k)).
    assert (H : Forall (fun i => k <= i < k + S (length scales))
                  (survivors_from (S k) scales)).
    { eapply Forall_impl; [exact IH|]. simpl. intros i Hi. lia. }
    destruct (is_zero s); [exact H|]. constructor; [lia | exact H].
Qed.

Lemma survivors_from_sorted k scales :
  StronglySorted lt (survivors_from k scales).
Proof.
  revert k. induction scales as [|s scales IH]; intros k; simpl.
  - constructor.
  - destruct (is_zero s); [apply IH|]. constructor; [apply IH|].
    eapply Forall_impl; [apply survivors_from_bounds|]. simpl. lia.
Qed.

Lemma survivors_from_length k scales :
  length (survivors_from k scales) + zero_count scales = length scales.
Proof.
  unfold zero_count. revert k.
  induction scales as [|s scales IH]; intros k; simpl; [reflexivity|].
  specialize (IH (S k)). rewrite filter_cons.
  destruct (is_zero s) eqn:E; destruct (decide _) as [D|D]; simpl;
    try congruence; lia.
Qed.

Lemma survivors_length scales :
  length (survivors scales) = length scales - zero_count scales.
Proof.
  pose proof (survivors_from_length 0 scales). unfold survivors. lia.
Qed.

Lemma survivors_bounds scales :
  Forall (fun i => i < length scales) (survivors scales).
Proof.
  eapply Forall_impl; [apply (survivors_from_bounds 0)|]. simpl. lia.
Qed.

Lemma select_length {A : Type} idx (xs : list A) :
  Forall (fun i => i < length xs) idx -> length (select idx xs) = length idx.
Proof.
  unfold select. induction 1 as [|i idx Hi _ IH]; simpl; [reflexivity|].
  destruct (lookup_lt_is_Some_2 xs i Hi) as [x ->]. simpl.
  f_equal. exact IH.
Qed.

Lemma select_Forall {A : Type} (P : A -> Prop) idx (xs : list A) :
  Forall P xs -> Forall P (select idx xs).
Proof.
  intros HP. unfold select. induction idx as [|i idx IH].
  - constructor.
  - change (Forall P (match xs !! i with
                      | Some x => x :: omap (fun k => xs !! k) idx
                      | None => omap (fun k => xs !! k) idx
                      end)).
    destruct (xs !! i) as [x|] eqn:E; [|exact IH].
    constructor; [|exact IH].
    apply (Forall_lookup_1 P xs i x HP E).
Qed.

(** Selecting the survivors keeps the non-zero scales, in their order. *)
Lemma select_survivors_from pre scales :
  select (survivors_from (length pre) scales) (pre ++ scales)
  = filter (fun s => is_zero s = false) scales.
Proof.
  revert pre. induction scales as [|s scales IH]; intros pre; simpl.
  - reflexivity.
  - specialize (IH (pre ++ [s])).
    rewrite length_app, Nat.add_1_r, <- app_assoc in IH. simpl in IH.
    rewrite filter_cons.
    destruct (is_zero s) eqn:E; destruct (decide _) as [D|D];
      try congruence.
    rewrite <- IH. unfold select.
    change (omap ?f (?i :: ?l)) with
      (match f i with Some x => x :: omap f l | None => omap f l end).
    cbv beta. rewrite list_lookup_middle by reflexivity. reflexivity.
Qed.

Lemma select_survivors scales :
  select (survivors scales) scales
  = filter (fun s => is_zero s = false) scales.
Proof. apply (select_survivors_from [] scales). Qed.

(** The compressed form of a pruning point, and the surviving set it
    inherits. *)
Lemma compress_blocks_lookup prev bs i b :
  bs !! i = Some b ->
  exists prev',
    compress_blocks prev bs !! i
      = Some (compress_block prev' (survivors (scale b)) b) /\
    match i with
    | 0 => prev' = prev
    | S j => exists b0, bs !! j = Some b0 /\ prev' = survivors (scale b0)
    end.
Proof.
  revert prev i. induction bs as [|b0 bs IH]; intros prev i Hi;
    [discriminate|].
  destruct i as [|i]; simpl in *.
  - injection Hi as <-. eauto.
  - destruct (IH (survivors (scale b0)) i Hi) as (prev' & Hc & Hprev).
    exists prev'. split; [exact Hc|].
    destruct i as [|i]; simpl in *; [subst; eauto | exact Hprev].
Qed.

Lemma surviving_counts_positive trained :
  Forall (fun b => zero_count (scale b) < length (scale b)) trained ->
  forallb (fun n => negb (Nat.eqb n 0)) (surviving_counts trained) = true.
Proof.
  induction 1 as [|b trained Hb _ IH]; simpl; [reflexivity|].
  rewrite IH, andb_true_r, survivors_length.
  destruct (Nat.eqb_spec (length (scale b) - zero_count (scale b)) 0);
    [lia | reflexivity].
Qed.

Lemma compress_matching trained target :
  target (surviving_counts trained)
    = surviving_shapes (input_channels trained) trained ->
  Forall (fun b => zero_count (scale b) < length (scale b)) trained ->
  compress trained target
    = Ok (compress_blocks (seq 0 (input_channels trained)) trained).
Proof.
  intros Ht Hz. unfold compress.
  rewrite decide_True by exact Ht.
  rewrite (surviving_counts_positive trained Hz). reflexivity.
Qed.

(** C6: when the target architecture matches and no pruning point is
    fully zeroed, the compressor returns a model in which a pruning point
    with [z] zero scales out of [n] has [n - z] output channels, in the
    normalisation and in the convolution, made of the surviving channels in
    their original order, and in which the next convolution has [n - z]
    input channels. *)
Theorem compress_channel_counts trained target i b n z :
  target (surviving_counts trained)
    = surviving_shapes (input_channels trained) trained ->
  Forall (fun b => zero_count (scale b) < length (scale b)) trained ->
  trained !! i = Some b ->
  length (scale b) = n -> zero_count (scale b) = z ->
  exists compressed c,
    compress trained target = Ok compressed /\
    compressed !! i = Some c /\
    b_out c = n - z /\
    length (scale c) = n - z /\
    (length (weight b) = n -> length (weight c) = n - z) /\
    StronglySorted lt (survivors (scale b)) /\
    scale c = filter (fun s => is_zero s = false) (scale b) /\
    (exists prev, c = compress_block prev (survivors (scale b)) b) /\
    (forall b', trained !! S i = Some b' ->
       exists c',
         compressed !! S i = Some c' /\
         b_in c' = n - z /\
         (Forall (fun row => length row = n) (weight b') ->
          Forall (fun row => length row = n - z) (weight c'))).
Proof.
  intros Ht Hz Hb Hn Hzc.
  destruct (compress_blocks_lookup (seq 0 (input_channels trained))
              trained i b Hb) as (prev & Hc & _).
  assert (Hown : length (survivors (scale b)) = n - z).
  { rewrite survivors_length. lia. }
  eexists _, _. split; [apply compress_matching; assumption|].
  split; [exact Hc|]. simpl.
  split; [exact Hown|].
  split.
  { rewrite select_length by apply survivors_bounds. exact Hown. }
  split.
  { intros Hw. rewrite length_map, select_length; [exact Hown|].
    rewrite Hw, <- Hn. apply survivors_bounds. }
  split; [apply survivors_from_sorted|].
  split; [apply select_survivors|].
  split; [eauto|].
  intros b' Hb'.
  destruct (compress_blocks_lookup (seq 0 (input_channels trained))
              trained (S i) b' Hb') as (prev' & Hc' & b0 & Hb0 & ->).
  rewrite Hb in Hb0. injection Hb0 as <-.
  eexists. split; [exact Hc'|]. simpl. split; [exact Hown|].
  intros Hrows. apply Forall_map, select_Forall.
  eapply Forall_impl; [exact Hrows|]. simpl. intros row Hrow.
  rewrite select_length; [exact Hown|].
  rewrite Hrow, <- Hn. apply survivors_bounds.
Qed.

Lemma compress_channel_counts_witness :
  exists compressed c,
    compress Inputs.trained_blocks Inputs.matching_target = Ok compressed /\
    compressed !! 0 = Some c /\
    b_out c = 4 - 2 /\
    length (scale c) = 4 - 2.
Proof.
  destruct (compress_channel_counts Inputs.trained_blocks
              Inputs.matching_target 0
              Inputs.first_block 4 2)
    as (compressed & c & H1 & H2 & H3 & H4 & _).
  - reflexivity.
  - repeat constructor.
  - reflexivity.
  - reflexivity.
  - reflexivity.
  - exists compressed, c. auto.
Defined.

Lemma seq_bounds input : Forall (fun i => i < input) (seq 0 input).
Proof. apply Forall_forall. intros i Hi. apply elem_of_seq in Hi. lia. Qed.

(** On a well-formed model the copy has, at every pruning point, tensors of
    exactly the computed sizes. *)
Lemma compress_blocks_fits input prev bs :
  CompressorSpec.chained input bs ->
  Forall (fun i => i < input) prev ->
  Forall2 CompressorSpec.fits (surviving_shapes (length prev) bs)
    (compress_blocks prev bs).
Proof.
  revert input prev. induction bs as [|b bs IH]; intros input prev Hch Hprev;
    simpl; [constructor|].
  destruct Hch as (Hin & (Hout & Hw & Hrows & Hsh & Hrm & Hrv) & Hch).
  pose proof (survivors_bounds (scale b)) as Hown.
  constructor.
  - unfold CompressorSpec.fits. simpl.
    split; [reflexivity|]. split; [reflexivity|].
    split.
    { rewrite length_map. apply select_length. rewrite Hw. exact Hown. }
    split.
    { apply Forall_map, select_Forall.
      eapply Forall_impl; [exact Hrows|]. simpl. intros row Hrow.
      apply select_length. rewrite Hrow, Hin. exact Hprev. }
    split; [apply select_length; exact Hown|].
    split; [apply select_length; rewrite Hsh; exact Hown|].
    split; [apply select_length; rewrite Hrm; exact Hown|].
    apply select_length. rewrite Hrv. exact Hown.
  - apply (IH (b_out b)); [exact Hch|]. rewrite Hout. exact Hown.
Qed.

Lemma compress_blocks_keeps prev bs :
  Forall2 CompressorSpec.keeps_survivors bs (compress_blocks prev bs).
Proof.
  revert prev. induction bs as [|b bs IH]; intros prev; simpl;
    [constructor|].
  constructor; [|apply IH].
  unfold CompressorSpec.keeps_survivors. simpl.
  split; [apply select_survivors|].
  rewrite select_length by apply survivors_bounds.
  apply survivors_from_length.
Qed.

(** C7: when the channel counts of the target architecture differ from the
    computed ones at some pruning point, the compressor raises the shape
    mismatch and returns no model.  A model is returned only when all
    counts agree, and then nothing is truncated or padded: every pruning
    point holds exactly its channels with a non-zero scale, in order, and,
    the trained model being well formed, every tensor has exactly the size
    the target architecture declares. *)
Theorem compress_shape_mismatch trained target :
  (forall i,
     target (surviving_counts trained) !! i
       <> surviving_shapes (input_channels trained) trained !! i ->
     compress trained target = Raise ShapeMismatch) /\
  (forall compressed,
     compress trained target = Ok compressed ->
     target (surviving_counts trained)
       = surviving_shapes (input_channels trained) trained /\
     length compressed = length trained /\
     Forall2 CompressorSpec.keeps_survivors trained compressed /\
     (CompressorSpec.chained (input_channels trained) trained ->
      Forall2 CompressorSpec.fits (target (surviving_counts trained))
        compressed)).
Proof.
  unfold compress. split.
  - intros i Hi. rewrite decide_False; [reflexivity|].
    intros E. apply Hi. rewrite E. reflexivity.
  - intros compressed.
    destruct (decide _) as [E|E]; [|discriminate].
    destruct (forallb _ _); [|discriminate].
    intros [= <-].
    pose proof (compress_blocks_keeps (seq 0 (input_channels trained)) trained)
      as Hkeep.
    split; [exact E|].
    split; [symmetry; apply (Forall2_length _ _ _ Hkeep)|].
    split; [exact Hkeep|].
    intros Hch. rewrite E.
    pose proof (compress_blocks_fits (input_channels trained)
                  (seq 0 (input_channels trained)) trained Hch
                  (seq_bounds (input_channels trained))) as Hfits.
    rewrite length_seq in Hfits. exact Hfits.
Qed.

Lemma compress_shape_mismatch_witness :
  compress Inputs.trained_blocks Inputs.fixed_target = Raise ShapeMismatch /\
  (forall compressed,
     compress Inputs.trained_blocks Inputs.matching_target = Ok compressed ->
     Forall2 CompressorSpec.fits [(3, 2); (2, 2)] compressed).
Proof.
  split.
  - destruct (compress_shape_mismatch Inputs.trained_blocks
                Inputs.fixed_target) as [H _].
    apply (H 0). intros E. discriminate E.
  - intros compressed Hc.
    destruct (compress_shape_mismatch Inputs.trained_blocks
                Inputs.matching_target) as [_ H].
    destruct (H compressed Hc) as (_ & _ & _ & Hfits).
    apply Hfits. simpl. unfold CompressorSpec.block_well_formed. simpl.
    repeat split; repeat constructor.
Defined.

(** The scenario of the specification: the scales 0, 1/2, 0, 4/5 drop the
    channels 0 and 2; the first convolution keeps its rows 1 and 3, and the
    second one the columns 1 and 3 of both its rows. *)
Example compress_trained_blocks :
  compress Inputs.trained_blocks Inputs.matching_target
  = Ok [mkBlock 3 2
          [[[4%Q]; [5%Q]; [6%Q]]; [[10%Q]; [11%Q]; [12%Q]]]
          [(1 # 2)%Q; (4 # 5)%Q] [2%Q; 4%Q] [0%Q; 0%Q] [1%Q; 1%Q];
        mkBlock 2 2
          [[[2%Q]; [4%Q]]; [[6%Q]; [8%Q]]]
          [1%Q; (-1)%Q] [0%Q; 0%Q] [0%Q; 0%Q] [1%Q; 1%Q]].
Proof. reflexivity. Qed.

End CompressorFacts.

(** * Further properties of [compute_penalties] *)

Module PenaltyMore.
Import Penalty PenaltySpec PenaltyFacts Shapes.

Lemma py_div_zero (a b : Q) : (b == 0)%Q -> py_div a b = Raise ZeroDivisionError.
Proof.
  intros Hb. unfold py_div. apply Qeq_bool_iff in Hb. rewrite Hb. reflexivity.
Qed.

(** What the outer loop returns: [penalties] followed by one value per
    index of the range. *)
Lemma penalties_loop_inv rho d image_dims layers range acc ps :
  penalties_loop rho d image_dims layers range acc = Ok ps ->
  exists ps',
    ps = acc ++ ps' /\
    Forall2 (fun i p => ista rho d image_dims layers i = Ok p) range ps'.
Proof.
  revert acc. induction range as [|i range IH]; intros acc; simpl.
  - intros [= <-]. exists []. rewrite app_nil_r. split; [reflexivity|].
    constructor.
  - destruct (ista rho d image_dims layers i) as [p|e] eqn:E; simpl;
      [|discriminate].
    intros H. apply IH in H as (ps' & -> & HF).
    exists (p :: ps'). rewrite <- app_assoc. split; [reflexivity|].
    constructor; assumption.
Qed.

Lemma compute_penalties_inv image_dims model rho d ps :
  compute_penalties image_dims model rho d = Ok ps ->
  Forall2 (fun i p => ista rho d image_dims (conv_layers model) i = Ok p)
    (seq 0 (length (conv_layers model))) ps.
Proof.
  intros H. apply penalties_loop_inv in H as (ps' & -> & HF). exact HF.
Qed.

Lemma penalties_loop_raise rho d image_dims layers i range acc e :
  ista rho d image_dims layers i = Raise e ->
  penalties_loop rho d image_dims layers (i :: range) acc = Raise e.
Proof. intros H. simpl. rewrite H. reflexivity. Qed.

(** The inner loop runs off the end of a trace that is too short. *)
Lemma follow_up_loop_raises image_dims i j tail acc :
  j + i <= length image_dims ->
  length image_dims < j + i + length tail ->
  follow_up_loop image_dims i j tail acc = Raise IndexError.
Proof.
  revert j acc. induction tail as [|f tail IH]; intros j acc Hle Hlt; simpl.
  - simpl in Hlt. lia.
  - unfold py_index.
    destruct (image_dims !! (j + i)) as [d|] eqn:E; simpl; [|reflexivity].
    apply lookup_lt_Some in E. apply IH; simpl in *; lia.
Qed.

Lemma ista_returns_weak rho image_dim image_dims layers i :
  length layers <= length image_dims + 1 -> ~ (image_dim == 0)%Q ->
  i < length layers ->
  exists p, ista rho image_dim image_dims layers i = Ok p.
Proof.
  intros Hlen Hd Hi. unfold ista.
  destruct (py_index_ok layers i Hi) as (l & _ & ->). simpl.
  destruct (follow_up_loop_returns image_dims i 0 (drop (S i) layers) 0%Q)
    as [cost Hcost].
  { rewrite length_drop. lia. }
  unfold follow_up_cost. rewrite Hcost. simpl.
  rewrite (py_div_ok 1 image_dim Hd). simpl. eauto.
Qed.

(** X1: [compute_penalties] returns the empty list exactly for the models
    without a convolution, whatever [rho], [image_dim] (zero included) and
    the spatial trace are. *)
Theorem compute_penalties_empty_iff image_dims model rho image_dim :
  compute_penalties image_dims model rho image_dim = Ok []
  <-> conv_layers model = [].
Proof.
  split.
  - intros H. apply compute_penalties_inv, Forall2_length in H.
    rewrite length_seq in H. simpl in H.
    destruct (conv_layers model); [reflexivity | discriminate].
  - intros H. unfold compute_penalties. rewrite H. reflexivity.
Qed.

(** X2: when the spatial trace has fewer entries than the number of
    convolutions minus one, [compute_penalties] raises [IndexError],
    whatever [rho] and [image_dim] are (a zero [image_dim] included: the
    trace is read first). *)
Theorem compute_penalties_index_error image_dims model rho image_dim :
  length image_dims + 1 < length (conv_layers model) ->
  compute_penalties image_dims model rho image_dim = Raise IndexError.
Proof.
  intros Hlen. unfold compute_penalties.
  destruct (conv_layers model) as [|l layers] eqn:E; [simpl in Hlen; lia|].
  change (seq 0 (length (l :: layers))) with (0 :: seq 1 (length layers)).
  apply penalties_loop_raise. unfold ista. simpl.
  unfold follow_up_cost. simpl drop.
  rewrite follow_up_loop_raises;
    [reflexivity | lia | rewrite length_drop; simpl in *; lia].
Qed.

Lemma compute_penalties_index_error_witness :
  compute_penalties [32%Q] (Inputs.two_blocks ++ Inputs.two_blocks) 1 0
  = Raise IndexError.
Proof.
  apply (compute_penalties_index_error [32%Q]
           (Inputs.two_blocks ++ Inputs.two_blocks) 1 0).
  vm_compute. lia.
Defined.

(** X3: when the model has a convolution and the spatial trace is long
    enough, a zero [image_dim] makes [compute_penalties] raise
    [ZeroDivisionError]. *)
Theorem compute_penalties_zero_division image_dims model rho image_dim :
  conv_layers model <> [] ->
  length (conv_layers model) <= length image_dims + 1 ->
  (image_dim == 0)%Q ->
  compute_penalties image_dims model rho image_dim = Raise ZeroDivisionError.
Proof.
  intros Hne Hlen Hd. unfold compute_penalties.
  destruct (conv_layers model) as [|l layers] eqn:E; [contradiction|].
  change (seq 0 (length (l :: layers))) with (0 :: seq 1 (length layers)).
  apply penalties_loop_raise. unfold ista. simpl.
  destruct (follow_up_loop_returns image_dims 0 0 (drop 1 (l :: layers)) 0%Q)
    as [c Hc].
  { rewrite length_drop. simpl in *. lia. }
  unfold follow_up_cost. rewrite Hc. simpl.
  rewrite (py_div_zero 1 image_dim Hd). reflexivity.
Qed.

Lemma compute_penalties_zero_division_witness :
  compute_penalties [32%Q] Inputs.two_blocks (1 # 10) (0 # 5)
  = Raise ZeroDivisionError.
Proof.
  apply (compute_penalties_zero_division [32%Q] Inputs.two_blocks
           (1 # 10) (0 # 5)).
  - discriminate.
  - vm_compute. lia.
  - reflexivity.
Defined.

(** The inner loop returns only when the trace covers every index it
    reads. *)
Lemma follow_up_loop_ok_bound image_dims i j tail acc c :
  follow_up_loop image_dims i j tail acc = Ok c ->
  tail = [] \/ j + i + length tail <= length image_dims.
Proof.
  revert j acc. induction tail as [|f tail IH]; intros j acc; simpl;
    [auto|].
  unfold py_index.
  destruct (image_dims !! (j + i)) as [d|] eqn:E; simpl; [|discriminate].
  apply lookup_lt_Some in E. intros H. right.
  destruct (IH _ _ H) as [->|Hle]; simpl in *; lia.
Qed.

(** X4: [compute_penalties] returns exactly when the model has no
    convolution, or the spatial trace has at least as many entries as the
    number of convolutions minus one and [image_dim] is not zero; what it
    returns has one entry per convolution. *)
Theorem compute_penalties_returns_iff image_dims model rho image_dim :
  ((exists ps, compute_penalties image_dims model rho image_dim = Ok ps)
   <-> (conv_layers model = [] \/
        (length (conv_layers model) <= length image_dims + 1 /\
         ~ (image_dim == 0)%Q))) /\
  (forall ps, compute_penalties image_dims model rho image_dim = Ok ps ->
     length ps = length (conv_layers model)).
Proof.
  split; [split|].
  - intros [ps Hps]. apply compute_penalties_inv in Hps.
    destruct (conv_layers model) as [|l layers] eqn:E; [left; reflexivity|].
    right.
    destruct (Forall2_lookup_l _ _ _ 0 0 Hps eq_refl) as (p & _ & Hista).
    apply ista_value in Hista as (l' & cost & _ & Hcost & Hd & _).
    split; [|exact Hd].
    apply follow_up_loop_ok_bound in Hcost.
    rewrite length_drop in Hcost. simpl in *.
    destruct Hcost as [Hnil|Hle]; [|lia].
    apply (f_equal length) in Hnil. rewrite length_drop in Hnil.
    simpl in Hnil. lia.
  - intros [Hnil|[Hle Hd]].
    + exists []. unfold compute_penalties. rewrite Hnil. reflexivity.
    + unfold compute_penalties.
      destruct (penalties_loop_returns rho image_dim image_dims
                  (conv_layers model) (seq 0 (length (conv_layers model))) [])
        as (ps & Hloop & _).
      * intros i Hi. apply elem_of_seq in Hi.
        apply ista_returns_weak; [assumption | assumption | lia].
      * exists ps. exact Hloop.
  - intros ps H. apply compute_penalties_inv, Forall2_length in H.
    rewrite length_seq in H. auto.
Qed.

Lemma compute_penalties_returns_iff_witness :
  exists ps,
    compute_penalties [32%Q] Inputs.two_blocks (1 # 10) 40 = Ok ps.
Proof.
  destruct (compute_penalties_returns_iff [32%Q] Inputs.two_blocks
              (1 # 10) 40) as [[_ H] _].
  apply H. right. split; [vm_compute; lia | intros E; discriminate E].
Defined.

(** The inner loop, from the sum it computes. *)
Lemma follow_sum_loop image_dims i j tail acc s :
  follow_sum image_dims (j + i) tail = Some s ->
  exists c,
    follow_up_loop image_dims i j tail acc = Ok c /\ (c == acc + s)%Q.
Proof.
  revert j acc s. induction tail as [|f tail IH]; intros j acc s; simpl.
  - intros [= <-]. exists acc. split; [reflexivity | ring].
  - unfold py_index. destruct (image_dims !! (j + i)) as [d|]; simpl;
      [|discriminate].
    destruct (follow_sum image_dims (S (j + i)) tail) as [s'|] eqn:E; simpl;
      [|discriminate].
    intros [= <-].
    destruct (IH (S j) (acc + (kernel_cost f + d ^ 2))%Q s' E)
      as (c & Hloop & Hc).
    exists c. split; [exact Hloop|]. rewrite Hc. ring.
Qed.

Lemma follow_up_loop_shift image_dims i j tail acc :
  follow_up_loop image_dims i (S j) tail acc
  = follow_up_loop image_dims (S i) j tail acc.
Proof.
  revert j acc. induction tail as [|f tail IH]; intros j acc; simpl.
  - reflexivity.
  - rewrite Nat.add_succ_r.
    destruct (py_index image_dims (S (j + i))) as [d|]; simpl;
      [apply IH | reflexivity].
Qed.

(** X5: the penalty of the last convolution has no follow-up part: it is
    [rho] times the kernel cost of that convolution. *)
Theorem compute_penalties_last image_dims model rho image_dim layers l ps :
  conv_layers model = layers ++ [l] ->
  compute_penalties image_dims model rho image_dim = Ok ps ->
  exists p,
    ps !! length layers = Some p /\
    length ps = S (length layers) /\
    (p == rho * kernel_cost l)%Q.
Proof.
  intros Hl Hps. apply compute_penalties_inv in Hps as HF.
  rewrite Hl, length_app, Nat.add_1_r in HF.
  destruct (Forall2_lookup_l _ _ _ (length layers) (length layers) HF)
    as (p & Hp & Hista).
  { apply lookup_seq. split; [reflexivity | lia]. }
  exists p. split; [exact Hp|]. split.
  { apply Forall2_length in HF. rewrite length_seq in HF. auto. }
  apply ista_value in Hista as (l' & cost & Hl' & Hcost & _ & Hval).
  rewrite list_lookup_middle in Hl' by reflexivity. injection Hl' as <-.
  unfold follow_up_cost in Hcost.
  rewrite drop_ge in Hcost by (rewrite length_app; simpl; lia).
  simpl in Hcost. injection Hcost as <-.
  rewrite Hval. ring.
Qed.

Lemma compute_penalties_last_witness :
  exists ps p,
    compute_penalties [32%Q] Inputs.one_block (1 # 10) 1 = Ok ps /\
    ps !! 0 = Some p /\ (p == (1 # 10) * 27)%Q.
Proof.
  pose proof (compute_penalties_last [32%Q] Inputs.one_block (1 # 10) 1 []
                (mkConv2d (3, 3) 3 64 [])) as H.
  destruct (compute_penalties [32%Q] Inputs.one_block (1 # 10) 1)
    as [ps|e] eqn:E.
  - destruct (H ps eq_refl eq_refl) as (p & Hp & _ & Hv).
    exists ps, p. auto.
  - vm_compute in E. discriminate E.
Defined.

(** X6: the follow-up cost of a convolution is the kernel cost of the next
    convolution, plus the square of its own entry of the spatial trace, plus
    the follow-up cost of the next convolution; so the follow-up cost never
    grows along the layers. *)
Theorem follow_up_cost_step image_dims layers i f c :
  layers !! S i = Some f ->
  follow_up_cost image_dims layers i = Ok c ->
  exists d c',
    image_dims !! i = Some d /\
    follow_up_cost image_dims layers (S i) = Ok c' /\
    (c == kernel_cost f + d ^ 2 + c')%Q /\
    (c' <= c)%Q.
Proof.
  intros Hf. unfold follow_up_cost. rewrite (drop_S layers f (S i) Hf).
  simpl. unfold py_index.
  destruct (image_dims !! i) as [d|] eqn:Hd; simpl; [|discriminate].
  rewrite follow_up_loop_shift. intros Hc.
  apply follow_up_loop_sum in Hc as (s & Hs & Hc).
  destruct (follow_sum_loop image_dims (S i) 0 (drop (S (S i)) layers) 0%Q s Hs)
    as (c' & Hc' & Hc'').
  exists d, c'. split; [reflexivity|]. split; [exact Hc'|].
  assert (Heq : (c == kernel_cost f + d ^ 2 + c')%Q).
  { rewrite Hc, Hc''. ring. }
  split; [exact Heq|].
  assert (0 <= d ^ 2)%Q by (simpl; nra).
  pose proof (kernel_cost_nonneg f). rewrite Heq. lra.
Qed.

Lemma follow_up_cost_step_witness :
  exists d c',
    Inputs.two_blocks_dims !! 0 = Some d /\
    follow_up_cost Inputs.two_blocks_dims (conv_layers Inputs.two_blocks) 1
      = Ok c' /\
    (c' <= 0 + (72 + 32 ^ 2))%Q.
Proof.
  destruct (follow_up_cost_step Inputs.two_blocks_dims
              (conv_layers Inputs.two_blocks) 0
              (mkConv2d (3, 3) 8 8 []) (0 + (72 + 32 ^ 2))%Q)
    as (d & c' & Hd & Hc' & _ & Hle).
  - reflexivity.
  - reflexivity.
  - exists d, c'. auto.
Defined.

Lemma kernel_cost_profile c1 c2 :
  cost_profile c1 = cost_profile c2 -> kernel_cost c1 = kernel_cost c2.
Proof.
  unfold cost_profile, kernel_cost. intros [= -> ->]. reflexivity.
Qed.

Lemma follow_up_loop_profile image_dims i j tail1 tail2 acc :
  cost_profile <$> tail1 = cost_profile <$> tail2 ->
  follow_up_loop image_dims i j tail1 acc
  = follow_up_loop image_dims i j tail2 acc.
Proof.
  revert tail2 j acc. induction tail1 as [|f1 tail1 IH];
    intros [|f2 tail2] j acc; simpl; try discriminate; [reflexivity|].
  intros [= Hk Hc Ht].
  rewrite (kernel_cost_profile f1 f2) by (unfold cost_profile; congruence).
  destruct (py_index image_dims (j + i)) as [d|]; simpl;
    [apply IH; exact Ht | reflexivity].
Qed.

Lemma ista_profile rho d image_dims layers1 layers2 i :
  cost_profile <$> layers1 = cost_profile <$> layers2 ->
  ista rho d image_dims layers1 i = ista rho d image_dims layers2 i.
Proof.
  intros H. unfold ista, py_index, follow_up_cost.
  assert (Hi : cost_profile <$> layers1 !! i = cost_profile <$> layers2 !! i).
  { rewrite <- !list_lookup_fmap, H. reflexivity. }
  rewrite (follow_up_loop_profile image_dims i 0
             (drop (S i) layers1) (drop (S i) layers2))
    by (rewrite !fmap_drop, H; reflexivity).
  destruct (layers1 !! i) as [l1|], (layers2 !! i) as [l2|];
    simpl in *; try discriminate; [|reflexivity].
  injection Hi as Hk Hc.
  rewrite (kernel_cost_profile l1 l2) by (unfold cost_profile; congruence).
  reflexivity.
Qed.

Lemma penalties_loop_ext rho d1 d2 dims1 dims2 layers1 layers2 range acc :
  (forall i, i ∈ range ->
     ista rho d1 dims1 layers1 i = ista rho d2 dims2 layers2 i) ->
  penalties_loop rho d1 dims1 layers1 range acc
  = penalties_loop rho d2 dims2 layers2 range acc.
Proof.
  revert acc. induction range as [|i range IH]; intros acc H; simpl.
  - reflexivity.
  - rewrite (H i) by left.
    destruct (ista rho d2 dims2 layers2 i) as [p|e]; simpl; [|reflexivity].
    apply IH. intros k Hk. apply H. right. exact Hk.
Qed.

(** X7: apart from what [compute_dims] makes of the model, the penalties
    depend on the model only through the kernel sizes and the input channel
    counts of its convolutions, in order: two models on which [compute_dims]
    agrees and whose convolutions agree on these get the same result, so the
    function itself reads no output channel count, no weight and no layer
    that is not a convolution. *)
Theorem compute_penalties_reads_profile (compute_dims : list layer -> list Q)
    model1 model2 rho image_dim :
  compute_dims model1 = compute_dims model2 ->
  cost_profile <$> conv_layers model1 = cost_profile <$> conv_layers model2 ->
  compute_penalties (compute_dims model1) model1 rho image_dim
  = compute_penalties (compute_dims model2) model2 rho image_dim.
Proof.
  intros Hdims H. rewrite Hdims. unfold compute_penalties.
  assert (Hlen : length (conv_layers model1) = length (conv_layers model2)).
  { rewrite <- (length_fmap cost_profile (conv_layers model1)), H.
    apply length_fmap. }
  rewrite Hlen. apply penalties_loop_ext.
  intros i _. apply ista_profile. exact H.
Qed.

Lemma compute_penalties_reads_profile_witness :
  compute_penalties Inputs.two_blocks_dims Inputs.two_blocks (1 # 10) 40
  = compute_penalties Inputs.two_blocks_dims
      [LConv2d (mkConv2d (3, 3) 3 512 [1%Q]);
       LConv2d (mkConv2d (3, 3) 8 1 [])] (1 # 10) 40.
Proof.
  apply (compute_penalties_reads_profile (fun _ => Inputs.two_blocks_dims)
           Inputs.two_blocks
           [LConv2d (mkConv2d (3, 3) 3 512 [1%Q]);
            LConv2d (mkConv2d (3, 3) 8 1 [])] (1 # 10) 40).
  - reflexivity.
  - reflexivity.
Defined.

Lemma follow_up_loop_dims_ext dims1 dims2 i j tail acc :
  (forall k, k < j + i + length tail -> dims1 !! k = dims2 !! k) ->
  follow_up_loop dims1 i j tail acc = follow_up_loop dims2 i j tail acc.
Proof.
  revert j acc. induction tail as [|f tail IH]; intros j acc H; simpl.
  - reflexivity.
  - unfold py_index. rewrite (H (j + i)) by (simpl; lia).
    destruct (dims2 !! (j + i)) as [d|]; simpl; [|reflexivity].
    apply IH. intros k Hk. apply H. simpl in *. lia.
Qed.

(** X8: only the first [n - 1] entries of the spatial trace are read, [n]
    being the number of convolutions: the output size of the last
    convolution, and anything after it, has no effect on the result. *)
Theorem compute_penalties_trace_prefix dims1 dims2 model rho image_dim :
  take (length (conv_layers model) - 1) dims1
    = take (length (conv_layers model) - 1) dims2 ->
  compute_penalties dims1 model rho image_dim
  = compute_penalties dims2 model rho image_dim.
Proof.
  intros H. unfold compute_penalties. apply penalties_loop_ext.
  intros i Hi. apply elem_of_seq in Hi. unfold ista, follow_up_cost.
  rewrite (follow_up_loop_dims_ext dims1 dims2 i 0); [reflexivity|].
  intros k Hk. rewrite length_drop in Hk.
  rewrite <- (lookup_take_lt dims1 (length (conv_layers model) - 1) k) by lia.
  rewrite <- (lookup_take_lt dims2 (length (conv_layers model) - 1) k) by lia.
  rewrite H. reflexivity.
Qed.

Lemma compute_penalties_trace_prefix_witness :
  compute_penalties [32%Q; 16%Q] Inputs.two_blocks (1 # 10) 40
  = compute_penalties [32%Q] Inputs.two_blocks (1 # 10) 40.
Proof.
  apply (compute_penalties_trace_prefix [32%Q; 16%Q] [32%Q]
           Inputs.two_blocks (1 # 10) 40).
  reflexivity.
Defined.

End PenaltyMore.

(** * Further properties of [compute_penalties_] *)

Module AlternateMore.
Import Alternate Shapes.

Lemma pairs_loop_all_ok globals pairs penalties :
  Forall (fun p => pair_body globals p.1 p.2 = Ok ()) pairs ->
  pairs_loop globals pairs penalties = Ok penalties.
Proof.
  induction 1 as [|[l1 l2] pairs Hp _ IH]; simpl; [reflexivity|].
  simpl in Hp. rewrite Hp. exact IH.
Qed.

Lemma pairs_loop_first_raise globals pairs penalties e :
  (forall l1 l2, is_conv l1 && is_bnx l2 = true ->
     pair_body globals l1 l2 = Raise e) ->
  Exists (fun p => is_conv p.1 && is_bnx p.2 = true) pairs ->
  pairs_loop globals pairs penalties = Raise e.
Proof.
  intros Hbody. induction pairs as [|[l1 l2] pairs IH]; intros Hex.
  - inversion Hex.
  - simpl. destruct (is_conv l1 && is_bnx l2) eqn:E.
    + rewrite (Hbody l1 l2 E). reflexivity.
    + assert (Hok : pair_body globals l1 l2 = Ok ()).
      { unfold pair_body. rewrite E. reflexivity. }
      rewrite Hok. simpl. apply IH.
      inversion Hex as [? ? H|]; subst; [|assumption].
      simpl in H. congruence.
Qed.

Lemma pair_body_no_match globals l1 l2 :
  is_conv l1 && is_bnx l2 = false -> pair_body globals l1 l2 = Ok ().
Proof. intros H. unfold pair_body. rewrite H. reflexivity. Qed.

Lemma no_conv_bn_pair_zip model :
  no_conv_bn_pair model = true ->
  Forall (fun p => is_conv p.1 && is_bnx p.2 = false)
    (zip model (drop 1 model)).
Proof.
  induction model as [|l1 model IH]; [constructor|].
  destruct model as [|l2 rest]; [constructor|].
  intros H. simpl in H. apply andb_true_iff in H as [Hh Ht].
  change (zip (l1 :: l2 :: rest) (drop 1 (l1 :: l2 :: rest)))
    with ((l1, l2) :: zip (l2 :: rest) (drop 1 (l2 :: rest))).
  constructor.
  - simpl. apply negb_true_iff. exact Hh.
  - apply IH. exact Ht.
Qed.

Lemma pair_exists_zip (model : list layer) k l1 l2 :
  model !! k = Some l1 -> model !! S k = Some l2 ->
  is_conv l1 = true -> is_bnx l2 = true ->
  Exists (fun p => is_conv p.1 && is_bnx p.2 = true)
    (zip model (drop 1 model)).
Proof.
  intros H1 H2 Hc Hb. apply Exists_exists. exists (l1, l2). split.
  - apply list_elem_of_lookup. exists k.
    rewrite lookup_zip_with, H1. simpl.
    rewrite lookup_drop. simpl. rewrite H2. reflexivity.
  - simpl. rewrite Hc, Hb. reflexivity.
Qed.

(** X9: on a model in which no convolution is immediately followed by an
    extended batch normalisation, [compute_penalties_] returns the empty
    list, whatever the global names are bound to. *)
Theorem compute_penalties__without_pair globals image_dims model rho
    image_dim :
  no_conv_bn_pair model = true ->
  compute_penalties_ globals image_dims model rho image_dim = Ok [].
Proof.
  intros H. unfold compute_penalties_. apply pairs_loop_all_ok.
  eapply Forall_impl; [apply no_conv_bn_pair_zip, H|].
  intros [l1 l2]. simpl. apply pair_body_no_match.
Qed.

Lemma compute_penalties__without_pair_witness :
  compute_penalties_ ∅ [] [Inputs.bnx []; Inputs.conv3x3 3 8; Inputs.relu]
    1 40 = Ok [].
Proof.
  apply (compute_penalties__without_pair ∅ []
           [Inputs.bnx []; Inputs.conv3x3 3 8; Inputs.relu] 1 40).
  reflexivity.
Defined.

(** X10: binding [num_zeros] to a number does not repair
    [compute_penalties_].  On a model with a convolution immediately
    followed by an extended batch normalisation it then depends on [tail]:
    unbound, the name error of [tail]; a number, a type error; a non-empty
    list, the unbound-local error of [follow_up_cost], which is never
    initialised; and only for the empty list does the call return, with the
    empty list. *)
Theorem compute_penalties__with_num_zeros globals image_dims model rho
    image_dim n k l1 l2 :
  globals !! "num_zeros" = Some (VNum n) ->
  model !! k = Some l1 -> model !! S k = Some l2 ->
  is_conv l1 = true -> is_bnx l2 = true ->
  compute_penalties_ globals image_dims model rho image_dim
  = match globals !! "tail" with
    | None => Raise (NameError "tail")
    | Some (VNum _) => Raise TypeError
    | Some (VLayers []) => Ok []
    | Some (VLayers (_ :: _)) => Raise (UnboundLocalError "follow_up_cost")
    end.
Proof.
  intros Hn H1 H2 Hc Hb. unfold compute_penalties_.
  pose proof (pair_exists_zip model k l1 l2 H1 H2 Hc Hb) as Hex.
  destruct (globals !! "tail") as [[q|[|t ts]]|] eqn:Ht.
  - apply pairs_loop_first_raise; [|exact Hex].
    intros m1 m2 Hm. unfold pair_body, lookup_global.
    rewrite Hm, Hn, Ht. reflexivity.
  - apply pairs_loop_all_ok. apply Forall_forall. intros [m1 m2] _.
    unfold pair_body, lookup_global. simpl.
    destruct (is_conv m1 && is_bnx m2); [|reflexivity].
    rewrite Hn, Ht. reflexivity.
  - apply pairs_loop_first_raise; [|exact Hex].
    intros m1 m2 Hm. unfold pair_body, lookup_global.
    rewrite Hm, Hn, Ht. reflexivity.
  - apply pairs_loop_first_raise; [|exact Hex].
    intros m1 m2 Hm. unfold pair_body, lookup_global.
    rewrite Hm, Hn, Ht. reflexivity.
Qed.

Lemma compute_penalties__with_num_zeros_witness :
  compute_penalties_
    (<["tail" := VLayers [Inputs.relu]]> (<["num_zeros" := VNum 2]> ∅))
    Inputs.two_blocks_dims Inputs.two_blocks (1 # 10) 40
  = Raise (UnboundLocalError "follow_up_cost").
Proof.
  rewrite (compute_penalties__with_num_zeros
             (<["tail" := VLayers [Inputs.relu]]>
                (<["num_zeros" := VNum 2]> ∅))
             Inputs.two_blocks_dims Inputs.two_blocks (1 # 10) 40 2 0
             (Inputs.conv3x3 3 8) (Inputs.bnx [])); reflexivity.
Defined.

End AlternateMore.

(** * Further properties of [scale_gammas] *)

Module RescaleMore.
Import Rescale RescaleFacts Shapes.

Lemma Qmult_nonzero (a b : Q) :
  ~ (a == 0)%Q -> ~ (b == 0)%Q -> ~ (a * b == 0)%Q.
Proof.
  intros Ha Hb H. apply Qmult_integral in H. tauto.
Qed.

Lemma Qinv_nonzero (a : Q) : ~ (a == 0)%Q -> ~ (1 / a == 0)%Q.
Proof.
  intros Ha H.
  assert (E : (a * (1 / a) == 1)%Q) by (field; exact Ha).
  rewrite H, Qmult_0_r in E. discriminate E.
Qed.

(** What a call does, whatever the direction: one pass of the loop with a
    factor and its inverse. *)
Lemma scale_gammas_loop alpha model scale_down :
  ~ (alpha == 0)%Q ->
  exists a a_,
    scale_gammas alpha model scale_down = Ok (scale_loop a a_ model) /\
    ~ (a == 0)%Q /\ (a_ == 1 / a)%Q.
Proof.
  intros Ha. destruct scale_down.
  - exists alpha, (1 / alpha)%Q. rewrite scale_gammas_shrink by exact Ha.
    split; [reflexivity|]. split; [exact Ha | reflexivity].
  - exists (1 / alpha)%Q, alpha. rewrite scale_gammas_grow by exact Ha.
    split; [reflexivity|]. split; [apply Qinv_nonzero, Ha|].
    field. exact Ha.
Qed.

(** X11: with [alpha = 0] both directions of [scale_gammas] raise
    [ZeroDivisionError]; the division comes before the loop, so no layer has
    been changed. *)
Theorem scale_gammas_zero_division alpha model scale_down :
  (alpha == 0)%Q ->
  scale_gammas alpha model scale_down = Raise ZeroDivisionError.
Proof.
  intros Ha. unfold scale_gammas.
  rewrite (PenaltyMore.py_div_zero 1 alpha Ha). reflexivity.
Qed.

Lemma scale_gammas_zero_division_witness :
  scale_gammas (0 # 3) Inputs.scaled_blocks false = Raise ZeroDivisionError.
Proof.
  apply (scale_gammas_zero_division (0 # 3) Inputs.scaled_blocks false).
  reflexivity.
Defined.

Lemma same_shape_refl l : same_shape l l.
Proof. destruct l; simpl; auto. Qed.

Lemma same_shape_scale a l : same_shape l (scale_weight a l).
Proof.
  destruct l; simpl; unfold scale_tensor; rewrite ?length_map; auto.
Qed.

Lemma scale_loop_same_shape a a_ model :
  Forall2 same_shape model (scale_loop a a_ model).
Proof.
  apply scale_loop_ind.
  - constructor.
  - intros x. repeat constructor. apply same_shape_refl.
  - intros l1 l2 rest _ _ IH. repeat constructor; auto using same_shape_scale.
  - intros l1 l2 rest _ IH. constructor; [apply same_shape_refl | exact IH].
Qed.

(** X12: for [alpha <> 0], [scale_gammas] returns a model with the same
    layers in the same order: every layer keeps its kind, its kernel size,
    its channel counts, its [follow] flag and the size of its weight
    tensor. *)
Theorem scale_gammas_same_shape alpha model scale_down :
  ~ (alpha == 0)%Q ->
  exists scaled,
    scale_gammas alpha model scale_down = Ok scaled /\
    length scaled = length model /\
    Forall2 same_shape model scaled.
Proof.
  intros Ha.
  destruct (scale_gammas_loop alpha model scale_down Ha) as (a & a_ & -> & _).
  eexists. split; [reflexivity|].
  pose proof (scale_loop_same_shape a a_ model) as H.
  split; [symmetry; apply (Forall2_length _ _ _ H) | exact H].
Qed.

Lemma scale_gammas_same_shape_witness :
  exists scaled,
    scale_gammas 2 Inputs.scaled_blocks true = Ok scaled /\
    length scaled = 4.
Proof.
  destruct (scale_gammas_same_shape 2 Inputs.scaled_blocks true)
    as (scaled & H1 & H2 & _).
  - intros E. discriminate E.
  - exists scaled. auto.
Defined.

Lemma scale_loop_no_pair a a_ model :
  no_bn_conv_pair model = true -> scale_loop a a_ model = model.
Proof.
  apply (scale_loop_ind a a_
           (fun m r => no_bn_conv_pair m = true -> r = m)).
  - reflexivity.
  - reflexivity.
  - intros l1 l2 rest Hb Hc _ H. simpl in H. rewrite Hb, Hc in H.
    discriminate H.
  - intros l1 l2 rest Hcond IH H. simpl in H. rewrite Hcond in H.
    simpl in H. rewrite IH by exact H. reflexivity.
Qed.

(** X13: on a model in which no normalisation is immediately followed by
    a convolution, for example one built of convolution, normalisation,
    activation blocks, [scale_gammas] with [alpha <> 0] returns the model
    unchanged. *)
Theorem scale_gammas_without_pair alpha model scale_down :
  ~ (alpha == 0)%Q ->
  no_bn_conv_pair model = true ->
  scale_gammas alpha model scale_down = Ok model.
Proof.
  intros Ha Hno.
  destruct (scale_gammas_loop alpha model scale_down Ha) as (a & a_ & -> & _).
  rewrite scale_loop_no_pair by exact Hno. reflexivity.
Qed.

Lemma scale_gammas_without_pair_witness :
  scale_gammas 2 (Inputs.two_blocks ++ [Inputs.conv3x3 8 8]) true
  = Ok (Inputs.two_blocks ++ [Inputs.conv3x3 8 8]).
Proof.
  apply (scale_gammas_without_pair 2
           (Inputs.two_blocks ++ [Inputs.conv3x3 8 8]) true).
  - intros E. discriminate E.
  - reflexivity.
Defined.

Lemma lookup_scale_tensor a t i :
  scale_tensor a t !! i = (fun x => (x * a)%Q) <$> t !! i.
Proof.
  unfold scale_tensor. revert i.
  induction t as [|x t IH]; intros [|i]; simpl; auto.
Qed.

(** X14: [scale_gammas] keeps every product of a scale of a normalisation
    and a weight of the convolution that immediately follows it, in both
    directions: what the pair of layers computes is rescaled on one side
    and inversely on the other. *)
Theorem scale_gammas_keeps_products alpha model scale_down k b c :
  ~ (alpha == 0)%Q ->
  model !! k = Some (LBatchNorm2dEx b) ->
  model !! S k = Some (LConv2d c) ->
  exists scaled b' c',
    scale_gammas alpha model scale_down = Ok scaled /\
    scaled !! k = Some (LBatchNorm2dEx b') /\
    scaled !! S k = Some (LConv2d c') /\
    forall i j x y,
      bn_weight b !! i = Some x -> conv_weight c !! j = Some y ->
      exists x' y',
        bn_weight b' !! i = Some x' /\ conv_weight c' !! j = Some y' /\
        (x' * y' == x * y)%Q.
Proof.
  intros Ha Hb Hc.
  destruct (scale_gammas_loop alpha model scale_down Ha)
    as (a & a_ & -> & Hna & Hinv).
  destruct (scale_loop_lookup_pair a a_ model k _ _ Hb Hc eq_refl eq_refl)
    as [Sb Sc].
  eexists _, _, _. split; [reflexivity|].
  split; [exact Sb|]. split; [exact Sc|].
  intros i j x y Hx Hy. simpl.
  exists (x * a)%Q, (y * a_)%Q.
  rewrite !lookup_scale_tensor, Hx, Hy. simpl.
  split; [reflexivity|]. split; [reflexivity|].
  rewrite Hinv. field. exact Hna.
Qed.

Lemma scale_gammas_keeps_products_witness :
  exists scaled b' c',
    scale_gammas 2 Inputs.scaled_blocks true = Ok scaled /\
    scaled !! 1 = Some (LBatchNorm2dEx b') /\
    scaled !! 2 = Some (LConv2d c').
Proof.
  destruct (scale_gammas_keeps_products 2 Inputs.scaled_blocks true 1
              (mkBatchNorm2dEx [(1 # 2)%Q; 0%Q] false)
              (mkConv2d (1, 1) 2 1 [7%Q; (2 # 3)%Q]))
    as (scaled & b' & c' & H1 & H2 & H3 & _).
  - intros E. discriminate E.
  - reflexivity.
  - reflexivity.
  - exists scaled, b', c'. auto.
Defined.

(** X15: the round trip also holds the other way round: for [alpha <> 0],
    the grow pass followed by the shrink pass gives back the original
    parameter values. *)
Theorem scale_gammas_grow_then_shrink alpha model :
  ~ (alpha == 0)%Q ->
  exists grown restored,
    scale_gammas alpha model false = Ok grown /\
    scale_gammas alpha grown true = Ok restored /\
    model_eq restored model.
Proof.
  intros Ha. eexists _, _.
  split; [apply scale_gammas_grow, Ha|].
  split; [apply scale_gammas_shrink, Ha|].
  apply scale_loop_inverse; intros x; field; exact Ha.
Qed.

Lemma scale_gammas_grow_then_shrink_witness :
  exists grown restored,
    scale_gammas 2 Inputs.scaled_blocks false = Ok grown /\
    scale_gammas 2 grown true = Ok restored /\
    model_eq restored Inputs.scaled_blocks.
Proof.
  apply (scale_gammas_grow_then_shrink 2 Inputs.scaled_blocks).
  intros E. discriminate E.
Defined.

Lemma scale_weight_compose a b c l :
  (forall x, x * a * b == x * c)%Q ->
  layer_eq (scale_weight b (scale_weight a l)) (scale_weight c l).
Proof.
  intros H.
  assert (Ht : forall t,
    tensor_eq (scale_tensor b (scale_tensor a t)) (scale_tensor c t)).
  { induction t as [|x t IH]; constructor; [apply H | exact IH]. }
  destruct l; simpl; auto.
Qed.

(** Two passes in a row are one pass with the products of the factors. *)
Lemma scale_loop_compose a a_ b b_ c c_ model :
  (forall x, x * a * b == x * c)%Q -> (forall x, x * a_ * b_ == x * c_)%Q ->
  model_eq (scale_loop b b_ (scale_loop a a_ model)) (scale_loop c c_ model).
Proof.
  intros H H_.
  apply (scale_loop_ind a a_
           (fun m r => model_eq (scale_loop b b_ r) (scale_loop c c_ m))).
  - constructor.
  - intros x. apply model_eq_refl.
  - intros l1 l2 rest Hb Hc IH.
    rewrite !scale_loop_cons, scale_weight_is_bnx, scale_weight_is_conv, Hb, Hc.
    simpl.
    rewrite !scale_loop_skip
      by (rewrite !scale_weight_is_bnx; apply is_conv_not_bnx, Hc).
    constructor; [apply scale_weight_compose, H|].
    constructor; [apply scale_weight_compose, H_ | exact IH].
  - intros l1 l2 rest Hcond IH.
    pose proof (scale_loop_kinds a a_ (l2 :: rest)) as Hk.
    destruct (scale_loop a a_ (l2 :: rest)) as [|l2' rest'] eqn:E;
      [inversion Hk|].
    inversion Hk as [|? ? ? ? [Hb' Hc'] _]; subst.
    rewrite !scale_loop_cons, Hc', Hcond.
    constructor; [apply layer_eq_refl | exact IH].
Qed.

(** X16: shrinking by [alpha] and then by [beta] gives the parameter values
    of one shrink by [alpha * beta]. *)
Theorem scale_gammas_compose alpha beta model :
  ~ (alpha == 0)%Q -> ~ (beta == 0)%Q ->
  exists once twice product,
    scale_gammas alpha model true = Ok once /\
    scale_gammas beta once true = Ok twice /\
    scale_gammas (alpha * beta) model true = Ok product /\
    model_eq twice product.
Proof.
  intros Ha Hb. eexists _, _, _.
  split; [apply scale_gammas_shrink, Ha|].
  split; [apply scale_gammas_shrink, Hb|].
  split; [apply scale_gammas_shrink, Qmult_nonzero; assumption|].
  apply scale_loop_compose; intros x; [ring | field; split; assumption].
Qed.

Lemma scale_gammas_compose_witness :
  exists once twice product,
    scale_gammas 2 Inputs.scaled_blocks true = Ok once /\
    scale_gammas (3 # 5) once true = Ok twice /\
    scale_gammas (2 * (3 # 5)) Inputs.scaled_blocks true = Ok product /\
    model_eq twice product.
Proof.
  apply (scale_gammas_compose 2 (3 # 5) Inputs.scaled_blocks).
  - intros E. discriminate E.
  - intros E. discriminate E.
Defined.

Lemma scale_weight_identity a l :
  (forall x, x * a == x)%Q -> layer_eq (scale_weight a l) l.
Proof.
  intros H.
  assert (Ht : forall t, tensor_eq (scale_tensor a t) t).
  { induction t as [|x t IH]; constructor; [apply H | exact IH]. }
  destruct l; simpl; auto.
Qed.

Lemma scale_loop_identity a a_ model :
  (forall x, x * a == x)%Q -> (forall x, x * a_ == x)%Q ->
  model_eq (scale_loop a a_ model) model.
Proof.
  intros H H_.
  apply (scale_loop_ind a a_ (fun m r => model_eq r m)).
  - constructor.
  - intros x. apply model_eq_refl.
  - intros l1 l2 rest _ _ IH.
    constructor; [apply scale_weight_identity, H|].
    constructor; [apply scale_weight_identity, H_ | exact IH].
  - intros l1 l2 rest _ IH. constructor; [apply layer_eq_refl | exact IH].
Qed.

(** X17: with [alpha = 1], the value the script sets, [scale_gammas] leaves
    every parameter value as it is, in both directions. *)
Theorem scale_gammas_one alpha model scale_down :
  (alpha == 1)%Q ->
  exists scaled,
    scale_gammas alpha model scale_down = Ok scaled /\
    model_eq scaled model.
Proof.
  intros Ha.
  assert (Hnz : ~ (alpha == 0)%Q) by (rewrite Ha; intros E; discriminate E).
  assert (Hinv : (1 / alpha == 1)%Q) by (rewrite Ha; reflexivity).
  destruct scale_down.
  - eexists. split; [apply scale_gammas_shrink, Hnz|].
    apply scale_loop_identity; intros x; [rewrite Ha | rewrite Hinv]; ring.
  - eexists. split; [apply scale_gammas_grow, Hnz|].
    apply scale_loop_identity; intros x; [rewrite Hinv | rewrite Ha]; ring.
Qed.

Lemma scale_gammas_one_witness :
  exists scaled,
    scale_gammas 1 Inputs.scaled_blocks true = Ok scaled /\
    model_eq scaled Inputs.scaled_blocks.
Proof.
  apply (scale_gammas_one 1 Inputs.scaled_blocks true). reflexivity.
Defined.

Lemma scale_loop_frame a a_ model :
  forall k l,
    model !! k = Some l ->
    (forall l2, model !! S k = Some l2 -> is_bnx l && is_conv l2 = false) ->
    (forall k' l0, k = S k' -> model !! k' = Some l0 ->
       is_bnx l0 && is_conv l = false) ->
    scale_loop a a_ model !! k = Some l.
Proof.
  pattern model, (scale_loop a a_ model). apply scale_loop_ind.
  - intros k l H. discriminate H.
  - intros x k l H _ _. exact H.
  - intros l1 l2 rest Hb Hc IH k l Hl Hnext Hprev.
    destruct k as [|[|k]]; simpl in *.
    + injection Hl as <-. specialize (Hnext l2 eq_refl).
      rewrite Hb, Hc in Hnext. discriminate Hnext.
    + injection Hl as <-. specialize (Hprev 0 l1 eq_refl eq_refl).
      rewrite Hb, Hc in Hprev. discriminate Hprev.
    + apply IH; [exact Hl | exact Hnext |].
      intros k' l0 -> Hl0. apply (Hprev (S (S k')) l0 eq_refl). exact Hl0.
  - intros l1 l2 rest Hcond IH k l Hl Hnext Hprev.
    destruct k as [|k]; simpl in *; [exact Hl|].
    apply IH; [exact Hl | exact Hnext |].
    intros k' l0 -> Hl0. apply (Hprev (S k') l0 eq_refl). exact Hl0.
Qed.

(** X18: [scale_gammas] leaves every other layer exactly as it is: a layer
    that is neither a normalisation immediately followed by a convolution
    nor a convolution immediately preceded by a normalisation comes back
    unchanged. *)
Theorem scale_gammas_frame alpha model scale_down k l :
  ~ (alpha == 0)%Q ->
  model !! k = Some l ->
  (forall l2, model !! S k = Some l2 -> is_bnx l && is_conv l2 = false) ->
  (forall k' l0, k = S k' -> model !! k' = Some l0 ->
     is_bnx l0 && is_conv l = false) ->
  exists scaled,
    scale_gammas alpha model scale_down = Ok scaled /\
    scaled !! k = Some l.
Proof.
  intros Ha Hl Hnext Hprev.
  destruct (scale_gammas_loop alpha model scale_down Ha) as (a & a_ & -> & _).
  eexists. split; [reflexivity|].
  apply scale_loop_frame; assumption.
Qed.

Lemma scale_gammas_frame_witness :
  exists scaled,
    scale_gammas 2 Inputs.scaled_blocks true = Ok scaled /\
    scaled !! 0 = Some (LConv2d (mkConv2d (1, 1) 1 2 [3%Q; (-5)%Q])).
Proof.
  apply (scale_gammas_frame 2 Inputs.scaled_blocks true 0
           (LConv2d (mkConv2d (1, 1) 1 2 [3%Q; (-5)%Q]))).
  - intros E. discriminate E.
  - reflexivity.
  - intros l2 [= <-]. reflexivity.
  - intros k' l0 E. discriminate E.
Defined.

End RescaleMore.

(** * Properties of [switch_to_follow] *)

Module FollowFacts.
Import Follow Shapes Rescale RescaleFacts.

Lemma switch_loop_lookup first model k :
  switch_loop first model !! k
  = (fun l => if negb first || existsb is_bnx (take k model)
              then with_follow l else l) <$> model !! k.
Proof.
  revert first k. induction model as [|l model IH]; intros first k.
  - destruct k; reflexivity.
  - destruct k as [|k].
    + destruct l, first; reflexivity.
    + destruct l as [c|b|s]; simpl; rewrite IH;
        try reflexivity.
      simpl. rewrite orb_true_r. reflexivity.
Qed.

Lemma switch_loop_length first model :
  length (switch_loop first model) = length model.
Proof.
  revert first. induction model as [|[c|b|s] model IH]; intros first; simpl;
    rewrite ?IH; reflexivity.
Qed.

Lemma switch_loop_weights first model :
  weight_of <$> switch_loop first model = weight_of <$> model.
Proof.
  revert first. induction model as [|[c|b|s] model IH]; intros first; simpl;
    rewrite ?IH; try reflexivity.
  destruct first; reflexivity.
Qed.

(** X19: [switch_to_follow] sets [follow] on every extended batch
    normalisation that has another one before it in the sequence, and
    changes nothing else: the first normalisation keeps its flag, the other
    layers, the order, the length and all weights stay as they are. *)
Theorem switch_to_follow_lookup model k :
  switch_to_follow model !! k
  = (fun l => if existsb is_bnx (take k model) then with_follow l else l)
      <$> model !! k /\
  length (switch_to_follow model) = length model /\
  weight_of <$> switch_to_follow model = weight_of <$> model.
Proof.
  unfold switch_to_follow. split; [apply switch_loop_lookup|].
  split; [apply switch_loop_length | apply switch_loop_weights].
Qed.

Lemma set_follow_twice b : set_follow (set_follow b) = set_follow b.
Proof. reflexivity. Qed.

Lemma switch_loop_false_twice first model :
  switch_loop first (switch_loop false model) = switch_loop false model.
Proof.
  revert first. induction model as [|[c|b|s] model IH]; intros first; simpl;
    rewrite ?IH; try reflexivity.
  destruct first; reflexivity.
Qed.

(** X20: [switch_to_follow] is idempotent: a second call changes nothing. *)
Theorem switch_to_follow_idempotent model :
  switch_to_follow (switch_to_follow model) = switch_to_follow model.
Proof.
  unfold switch_to_follow.
  induction model as [|[c|b|s] model IH]; simpl; rewrite ?IH;
    try reflexivity.
  rewrite switch_loop_false_twice. reflexivity.
Qed.

Lemma switch_loop_no_bnx first model :
  PenaltySpec.prunable_layers model = [] -> switch_loop first model = model.
Proof.
  unfold PenaltySpec.prunable_layers. revert first.
  induction model as [|[c|b|s] model IH]; intros first;
    cbn [switch_loop]; try reflexivity.
  - rewrite filter_cons_False by (simpl; discriminate).
    intros H. rewrite IH by exact H. reflexivity.
  - rewrite filter_cons_True by reflexivity. discriminate.
  - rewrite filter_cons_False by (simpl; discriminate).
    intros H. rewrite IH by exact H. reflexivity.
Qed.

(** X21: a model with at most one extended batch normalisation is left
    unchanged by [switch_to_follow]. *)
Theorem switch_to_follow_single model :
  length (PenaltySpec.prunable_layers model) <= 1 ->
  switch_to_follow model = model.
Proof.
  unfold switch_to_follow, PenaltySpec.prunable_layers.
  induction model as [|[c|b|s] model IH]; cbn [switch_loop negb];
    try reflexivity.
  - rewrite filter_cons_False by (simpl; discriminate).
    intros H. rewrite IH by exact H. reflexivity.
  - rewrite filter_cons_True by reflexivity. intros H.
    rewrite switch_loop_no_bnx; [reflexivity|].
    unfold PenaltySpec.prunable_layers.
    destruct (filter _ model); [reflexivity | simpl in H; lia].
  - rewrite filter_cons_False by (simpl; discriminate).
    intros H. rewrite IH by exact H. reflexivity.
Qed.

Lemma switch_to_follow_single_witness :
  switch_to_follow Inputs.one_block = Inputs.one_block.
Proof.
  apply (switch_to_follow_single Inputs.one_block). vm_compute. lia.
Defined.

Lemma conv_layers_switch_loop first model :
  Penalty.conv_layers (switch_loop first model) = Penalty.conv_layers model.
Proof.
  unfold Penalty.conv_layers. revert first.
  induction model as [|[c|b|s] model IH]; intros first.
  - reflexivity.
  - simpl. f_equal. apply IH.
  - destruct first; simpl; apply IH.
  - simpl. apply IH.
Qed.

(** X22: [switch_to_follow] does not change the penalties:
    [compute_penalties] gives the same result before and after it. *)
Theorem compute_penalties_after_switch image_dims model rho image_dim :
  Penalty.compute_penalties image_dims (switch_to_follow model) rho image_dim
  = Penalty.compute_penalties image_dims model rho image_dim.
Proof.
  unfold Penalty.compute_penalties, switch_to_follow.
  rewrite conv_layers_switch_loop. reflexivity.
Qed.

Lemma same_shape_profile model scaled :
  Forall2 same_shape model scaled ->
  cost_profile <$> Penalty.conv_layers model
  = cost_profile <$> Penalty.conv_layers scaled.
Proof.
  unfold Penalty.conv_layers.
  induction 1 as [|l l' model scaled Hl _ IH]; [reflexivity|].
  destruct l as [c|b|s], l' as [c'|b'|s']; simpl in *; try contradiction;
    try exact IH.
  destruct Hl as (Hk & Hi & _). unfold cost_profile at 1 3.
  rewrite Hk, Hi. f_equal. exact IH.
Qed.

(** X23: [scale_gammas] does not change the penalties: on the model it
    returns, [compute_penalties] gives the same result as on the original
    one. *)
Theorem compute_penalties_after_scale image_dims model rho image_dim alpha
    scale_down scaled :
  scale_gammas alpha model scale_down = Ok scaled ->
  Penalty.compute_penalties image_dims scaled rho image_dim
  = Penalty.compute_penalties image_dims model rho image_dim.
Proof.
  intros H.
  assert (Hshape : Forall2 same_shape model scaled).
  { unfold scale_gammas in H.
    destruct (py_div 1 alpha) as [inv|]; simpl in H; [|discriminate].
    destruct scale_down; simpl in H; injection H as <-;
      apply RescaleMore.scale_loop_same_shape. }
  apply same_shape_profile in Hshape.
  unfold Penalty.compute_penalties.
  assert (Hlen : length (Penalty.conv_layers scaled)
                 = length (Penalty.conv_layers model)).
  { rewrite <- (length_fmap cost_profile (Penalty.conv_layers scaled)),
      <- Hshape.
    apply length_fmap. }
  rewrite Hlen. apply PenaltyMore.penalties_loop_ext.
  intros i _. apply PenaltyMore.ista_profile. symmetry. exact Hshape.
Qed.

Lemma compute_penalties_after_scale_witness :
  Penalty.compute_penalties [1%Q; 1%Q]
    (scale_loop 2 (1 / 2) Inputs.scaled_blocks) 1 40
  = Penalty.compute_penalties [1%Q; 1%Q] Inputs.scaled_blocks 1 40.
Proof.
  apply (compute_penalties_after_scale [1%Q; 1%Q] Inputs.scaled_blocks 1 40
           2 true).
  reflexivity.
Defined.

Lemma scale_weight_with_follow a l :
  scale_weight a (with_follow l) = with_follow (scale_weight a l).
Proof. destruct l; reflexivity. Qed.

(** The two loops commute, whatever [first] is. *)
Lemma switch_loop_scale_loop a a_ model :
  forall first,
    switch_loop first (scale_loop a a_ model)
    = scale_loop a a_ (switch_loop first model).
Proof.
  pattern model, (scale_loop a a_ model). apply scale_loop_ind.
  - reflexivity.
  - intros [c|b|s] [|]; reflexivity.
  - intros [c|b|s] [c'|b'|s'] rest Hb Hc IH first; try discriminate.
    destruct first; cbn [switch_loop negb scale_weight];
      rewrite scale_loop_cons; cbn [is_bnx is_conv andb scale_weight];
      rewrite scale_loop_skip by reflexivity; rewrite IH; reflexivity.
  - intros l1 l2 rest Hcond IH first.
    destruct l1 as [c|b|s].
    + cbn [switch_loop]. rewrite IH, scale_loop_skip by reflexivity.
      reflexivity.
    + simpl in Hcond.
      destruct l2 as [c'|b'|s']; [discriminate Hcond | |];
        cbn [switch_loop]; rewrite IH; cbn [switch_loop];
        destruct first; cbn [negb]; rewrite scale_loop_cons;
        reflexivity.
    + cbn [switch_loop]. rewrite IH, scale_loop_skip by reflexivity.
      reflexivity.
Qed.

(** X24: [switch_to_follow] and [scale_gammas] commute: rescaling the
    switched model gives the switched form of the rescaled model, and fails
    when rescaling the original model fails. *)
Theorem scale_gammas_after_switch alpha model scale_down :
  scale_gammas alpha (switch_to_follow model) scale_down
  = match scale_gammas alpha model scale_down with
    | Ok scaled => Ok (switch_to_follow scaled)
    | Raise e => Raise e
    end.
Proof.
  unfold scale_gammas, switch_to_follow.
  destruct (py_div 1 alpha) as [inv|]; simpl; [|reflexivity].
  destruct scale_down; simpl; rewrite switch_loop_scale_loop; reflexivity.
Qed.

End FollowFacts.

(** * The parameter groups of [train_model] *)

Module TrainingFacts.
Import Training.

Example contains_bnx_examples :
  contains_bnx "features.1.bnx.weight" = true /\
  contains_bnx "features.0.weight" = false /\
  contains_bnx "bn1.bias" = false /\
  contains_bnx "" = false.
Proof. repeat split; reflexivity. Qed.

(** X25: the test ['bnx' in n] holds exactly when the three characters
    occur in [n] one after the other, at some position. *)
Theorem contains_bnx_substring (n : string) :
  contains_bnx n = true <-> exists m, String.substring m 3 n = "bnx"%string.
Proof.
  unfold contains_bnx. split.
  - destruct (String.index 0 "bnx" n) as [m|] eqn:E; [|discriminate].
    intros _. exists m. apply (String.index_correct1 0 m "bnx" n E).
  - intros [m Hm].
    destruct (String.index 0 "bnx" n) as [k|] eqn:E; [reflexivity|].
    exfalso.
    apply (String.index_correct3 0 m "bnx" n E); [discriminate | lia|].
    exact Hm.
Qed.

(** X26: every named parameter goes to exactly one of the two optimisers
    of [train_model]: the proximal one when its name contains [bnx], the
    ordinary one otherwise; each group keeps the order of
    [named_parameters]. *)
Theorem parameter_groups_partition {P : Type}
    (named_parameters : list (string * P)) :
  bn_params named_parameters ++ non_bn_params named_parameters
    ≡ₚ map snd named_parameters /\
  length (bn_params named_parameters)
    + length (non_bn_params named_parameters) = length named_parameters /\
  sublist (bn_params named_parameters) (map snd named_parameters) /\
  sublist (non_bn_params named_parameters) (map snd named_parameters) /\
  (forall n p, (n, p) ∈ named_parameters ->
     if contains_bnx n then p ∈ bn_params named_parameters
     else p ∈ non_bn_params named_parameters).
Proof.
  unfold bn_params, non_bn_params.
  induction named_parameters as [|[n p] nps IH].
  - repeat split; try constructor. intros n p H. inversion H.
  - destruct IH as (Hperm & Hlen & Hs1 & Hs2 & Hin).
    rewrite !filter_cons. cbn [fst snd].
    destruct (contains_bnx n) eqn:E.
    + rewrite decide_True by reflexivity.
      rewrite decide_False by discriminate. cbn [map app].
      split; [constructor; exact Hperm|].
      split; [cbn [length]; lia|].
      split; [constructor; exact Hs1|].
      split; [apply sublist_cons; exact Hs2|].
      intros n' p' H'. apply elem_of_cons in H' as [[= -> ->]|H'].
      * rewrite E. left.
      * specialize (Hin n' p' H').
        destruct (contains_bnx n'); [right|]; exact Hin.
    + rewrite decide_False by discriminate.
      rewrite decide_True by reflexivity. cbn [map app].
      split; [rewrite <- Permutation_middle; constructor; exact Hperm|].
      split; [cbn [length]; lia|].
      split; [apply sublist_cons; exact Hs1|].
      split; [constructor; exact Hs2|].
      intros n' p' H'. apply elem_of_cons in H' as [[= -> ->]|H'].
      * rewrite E. left.
      * specialize (Hin n' p' H').
        destruct (contains_bnx n'); [|right]; exact Hin.
Qed.

End TrainingFacts.

(** * [compute_penalties] on doubles, and the count of penalties *)

Module PenaltyDoubles.
Import PrimFloat PenaltySpec.

(** On doubles: [rho = 0.1] gives the penalties 112.30000000000001 and 7.2
    for the two-block model; [rho = 7 * 0.1], which is 0.7000000000000001,
    gives 786.1 and 50.400000000000006. *)
Example compute_penalties_doubles_two_blocks :
  PenaltyFloat.compute_penalties MoreInputs.two_blocks_sizes Inputs.two_blocks
    MoreInputs.one_tenth 40
  = Ok [0x1.c133333333334p+6; 0x1.ccccccccccccdp+2]%float /\
  PenaltyFloat.compute_penalties MoreInputs.two_blocks_sizes Inputs.two_blocks
    (7 * MoreInputs.one_tenth) 40
  = Ok [0x1.890cccccccccdp+9; 0x1.9333333333334p+5]%float /\
  (7 * 0x1.c133333333334p+6 = 0x1.890cccccccccep+9)%float.
Proof. repeat split; reflexivity. Qed.

(** C4, on doubles: for the two-block model, [rho = 0.1] and [k = 7], the
    first penalty for [k * rho] is 786.1, and [k] times the first penalty
    for [rho] is 786.1000000000001: the penalties for [k * rho] are not [k]
    times the penalties for [rho]. *)
Lemma rho_scaling_rounds_in_doubles :
  ~ result_rel (Forall2 (fun p p' => p' = (7 * p)%float))
      (PenaltyFloat.compute_penalties MoreInputs.two_blocks_sizes
         Inputs.two_blocks MoreInputs.one_tenth 40)
      (PenaltyFloat.compute_penalties MoreInputs.two_blocks_sizes
         Inputs.two_blocks (7 * MoreInputs.one_tenth) 40).
Proof.
  destruct compute_penalties_doubles_two_blocks as (-> & -> & Hk).
  simpl. intros H. inversion H as [|? ? ? ? Hp _]; subst.
  rewrite Hk in Hp.
  pose proof (f_equal (fun x => PrimFloat.eqb x 0x1.890cccccccccep+9) Hp)
    as Hb.
  vm_compute in Hb. discriminate Hb.
Qed.

(** On doubles: the one-block model with [rho = 1] gets the penalty 27 for
    [image_dim = 40] and 26.999999999999996 for [image_dim = 49], because
    [1 / 49 * 49] is 0.9999999999999999. *)
Example compute_penalties_doubles_one_block :
  PenaltyFloat.compute_penalties [32%Z] Inputs.one_block 1 40
  = Ok [27%float] /\
  PenaltyFloat.compute_penalties [32%Z] Inputs.one_block 1 49
  = Ok [0x1.affffffffffffp+4%float] /\
  (1 / 49 * 49 = 0x1.fffffffffffffp-1)%float /\
  (1 / 40 * 40 = 1)%float.
Proof. repeat split; reflexivity. Qed.

(** C10, on doubles: for the one-block model and [rho = 1],
    [image_dim = 40] and [image_dim = 49] do not give the same penalty
    list. *)
Lemma image_dim_rounds_in_doubles :
  ~ result_rel (Forall2 eq)
      (PenaltyFloat.compute_penalties [32%Z] Inputs.one_block 1 40)
      (PenaltyFloat.compute_penalties [32%Z] Inputs.one_block 1 49).
Proof.
  destruct compute_penalties_doubles_one_block as (-> & -> & _).
  simpl. intros H. inversion H as [|? ? ? ? Hp _]; subst.
  pose proof (f_equal (fun x => PrimFloat.eqb x 27) Hp) as Hb.
  vm_compute in Hb. discriminate Hb.
Qed.

(** C8, on the code: the model with two convolutions of which only the
    second has a normalisation has one prunable layer, and
    [compute_penalties] returns two penalties for it, 1123 and 72: the
    filter keeps every convolution, with or without batch normalisation. *)
Theorem compute_penalties_counts_every_conv :
  exists p1 p2,
    Penalty.compute_penalties Inputs.two_blocks_dims
      MoreInputs.unpaired_blocks 1 40 = Ok [p1; p2] /\
    (p1 == 1123)%Q /\ (p2 == 72)%Q /\
    length (prunable_layers MoreInputs.unpaired_blocks) = 1 /\
    length (Penalty.conv_layers MoreInputs.unpaired_blocks) = 2.
Proof.
  do 2 eexists. split; [vm_compute; reflexivity|].
  repeat split; reflexivity.
Qed.

End PenaltyDoubles.
